(** * ai-hero: the chat store, the tool adapters and the chat route

    A shallow embedding of the conversation store (server/db/queries:
    [upsertChat], [getChat]), of the two tool adapters
    ([searchWeb], [scrapePages]) and of the [POST] handler of the chat
    route, followed by the properties of the written specification that
    can be stated over them.

    Layout: definitions first (types, the store, the tools, the route),
    then lemmas and theorems. *)

From Stdlib Require Import List Ascii String Bool Arith Lia Permutation Sorted.
Import ListNotations.
Local Open Scope string_scope.
Local Open Scope list_scope.

(* ===================================================================== *)
(** * Part I. Definitions                                                 *)
(* ===================================================================== *)

(** ** Failures and the store monad *)

(** What an awaited call can reject with. *)
Inductive Failure : Type :=
| OwnershipConflict
    (* throw new Error("Chat ID already exists under a different user") *)
| UniqueViolation (table : string)
    (* the store refuses a second row with the same key *)
| UpstreamFailure (detail : string)
    (* a provider call (search) rejected *)
| TypeError (detail : string).
    (* a property read on undefined *)

Inductive result (A : Type) : Type :=
| Ok (a : A)
| Err (e : Failure).
Arguments Ok {A} a.
Arguments Err {A} e.

Definition is_ok {A} (r : result A) : bool :=
  match r with Ok _ => true | Err _ => false end.

(** ** Tool payloads (part_000, lines 120-166) *)

Record OrganicResult : Type := {
  organic_title : string;
  organic_link : string;
  organic_snippet : string;
  organic_date : option string
}.

Record SearchHit : Type := {
  hit_title : string;
  hit_link : string;
  hit_snippet : string;
  hit_date : option string
}.

(** Result of crawling one page: [{success: true, data}] or
    [{success: false, error}]. *)
Inductive CrawlResult : Type :=
| CrawlSuccess (data : string)
| CrawlError (error : string).

Definition crawl_success (r : CrawlResult) : bool :=
  match r with CrawlSuccess _ => true | CrawlError _ => false end.

Record CrawlEntry : Type := {
  entry_url : string;
  entry_result : CrawlResult
}.

Record BulkCrawlResponse : Type := {
  bulk_success : bool;
  bulk_error : option string;
  bulk_results : list CrawlEntry
}.

(** One element of the [results] array that [scrapePages] returns.
    [page_data = None] stands for a [data] property that is undefined. *)
Record PageOutcome : Type := {
  page_url : string;
  page_success : bool;
  page_data : option string
}.

(** The object [scrapePages.execute] returns; [scrape_error = None] is the
    object without an [error] key. *)
Record ScrapePagesOutput : Type := {
  scrape_error : option string;
  scrape_results : list PageOutcome
}.

Inductive ToolArgs : Type :=
| SearchWebArgs (query : string)
| ScrapePagesArgs (urls : list string).

Inductive ToolOutput : Type :=
| SearchWebOutput (hits : list SearchHit)
| ScrapeOutput (out : ScrapePagesOutput)
| ToolErrorPayload (e : Failure).

Definition toolName (a : ToolArgs) : string :=
  match a with
  | SearchWebArgs _ => "searchWeb"
  | ScrapePagesArgs _ => "scrapePages"
  end.

(** ** Messages *)

Inductive Role : Type := user | assistant | system.

Inductive ToolState : Type := calling | called | has_result.

Inductive MessagePart : Type :=
| TextPart (text : string)
| ToolInvocation (name : string) (args : ToolArgs) (state : ToolState)
                 (output : option ToolOutput).

Record Message : Type := {
  role : Role;
  parts : list MessagePart;
  content : string
}.

(** ** Tables *)

(** A row of table [chats].  Column [updatedAt] is filled by the store's
    clock and is left out. *)
Record Chat : Type := {
  chat_id : string;
  chat_userId : string;
  chat_title : string
}.

(** A row of table [messages]. *)
Record MessageRow : Type := {
  msg_chatId : string;
  msg_role : Role;
  msg_parts : list MessagePart;
  msg_order : nat
}.

Record Db : Type := {
  chats : list Chat;
  messages : list MessageRow
}.

Definition empty_db : Db := {| chats := []; messages := [] |}.

(** Effectful code threads a state and may reject.  Statements run one
    after the other against the store and nothing wraps them in a
    transaction, so what was written before a rejection stays written:
    the state is returned next to the outcome. *)
Definition StateM (S A : Type) : Type := S -> result A * S.

Definition ret {S A} (a : A) : StateM S A := fun s => (Ok a, s).

Definition throw {S A} (e : Failure) : StateM S A := fun s => (Err e, s).

Definition bind {S A B} (m : StateM S A) (k : A -> StateM S B) : StateM S B :=
  fun s =>
    match m s with
    | (Ok a, s') => k a s'
    | (Err e, s') => (Err e, s')
    end.

Notation "x <- m ;; k" := (bind m (fun x => k))
  (at level 61, m at next level, right associativity).
Notation "m ;; k" := (bind m (fun _ => k))
  (at level 61, right associativity).

Definition DbM : Type -> Type := StateM Db.

(** [array.map((x, i) => f(x, i))] *)
Fixpoint mapi_from {A B} (f : A -> nat -> B) (i : nat) (l : list A) : list B :=
  match l with
  | [] => []
  | x :: l' => f x i :: mapi_from f (S i) l'
  end.

Definition mapi {A B} (f : A -> nat -> B) (l : list A) : list B :=
  mapi_from f 0 l.

(** [orderBy: asc(messages.order)]: rows in ascending [order].  Rows of
    equal [order] keep the order of the table. *)
Fixpoint insert_by_order (r : MessageRow) (l : list MessageRow) : list MessageRow :=
  match l with
  | [] => [r]
  | x :: l' =>
      if (msg_order r <=? msg_order x)%nat then r :: l
      else x :: insert_by_order r l'
  end.

Definition orderBy_order (l : list MessageRow) : list MessageRow :=
  fold_right insert_by_order [] l.

Definition set_title (t : string) (c : Chat) : Chat :=
  {| chat_id := chat_id c; chat_userId := chat_userId c; chat_title := t |}.

(** ** The store's statements *)

Section Store.

(** The schema of table [chats] is not part of the sources.  Whether the
    store refuses a second row with the same [id] (a primary key) is a
    parameter of the model; every statement about the store is made for
    both values. *)
Variable unique_chat_id : bool.

(** [db.query.chats.findFirst({ where })] *)
Definition findFirst_chats (where_ : Chat -> bool) : DbM (option Chat) :=
  fun db => (Ok (find where_ (chats db)), db).

(** [db.insert(chats).values(row)].  This is the one statement the model
    lets the store refuse; a store that cannot be reached, which could
    break off any statement, is outside the model. *)
Definition insert_chats (row : Chat) : DbM unit :=
  fun db =>
    if unique_chat_id
       && existsb (fun c => chat_id c =? chat_id row) (chats db)
    then (Err (UniqueViolation "chats"), db)
    else (Ok tt, {| chats := chats db ++ [row]; messages := messages db |}).

(** [db.update(chats).set({ title }).where(eq(chats.id, chatId))] *)
Definition update_chats_title (chatId title : string) : DbM unit :=
  fun db =>
    (Ok tt,
     {| chats := map (fun c => if chat_id c =? chatId then set_title title c
                               else c) (chats db);
        messages := messages db |}).

(** [db.delete(messages).where(eq(messages.chatId, chatId))] *)
Definition delete_messages (chatId : string) : DbM unit :=
  fun db =>
    (Ok tt,
     {| chats := chats db;
        messages := filter (fun r => negb (msg_chatId r =? chatId))
                           (messages db) |}).

(** [db.insert(messages).values(rows)] *)
Definition insert_messages (rows : list MessageRow) : DbM unit :=
  fun db => (Ok tt, {| chats := chats db; messages := messages db ++ rows |}).

(** [db.query.messages.findMany({ where: eq(messages.chatId, chatId),
    orderBy: [messages.order] })] *)
Definition findMany_messages (chatId : string) : DbM (list MessageRow) :=
  fun db =>
    (Ok (orderBy_order (filter (fun r => msg_chatId r =? chatId) (messages db))),
     db).

(** ** queries: upsertChat, getChat (part_001) *)

Record UpsertOpts : Type := {
  opt_userId : string;
  opt_chatId : string;
  opt_title : string;
  opt_messages : list Message
}.

Definition owned_by (userId chatId : string) (c : Chat) : bool :=
  (chat_id c =? chatId) && (chat_userId c =? userId).

Definition message_row (chatId : string) (msg : Message) (i : nat) : MessageRow :=
  {| msg_chatId := chatId;
     msg_role := role msg;
     msg_parts := parts msg;
     msg_order := i |}.

Definition upsertChat (opts : UpsertOpts) : DbM unit :=
  (* Check if chat exists and belongs to user *)
  chat <- findFirst_chats (owned_by (opt_userId opts) (opt_chatId opts)) ;;
  match chat with
  | None =>
      (* Create new chat *)
      insert_chats {| chat_id := opt_chatId opts;
                      chat_userId := opt_userId opts;
                      chat_title := opt_title opts |}
  | Some chat =>
      (* If chat exists but belongs to a different user, throw error *)
      if negb (chat_userId chat =? opt_userId opts)
      then throw OwnershipConflict
      else
        (* Update title if changed *)
        (if negb (chat_title chat =? opt_title opts)
         then update_chats_title (opt_chatId opts) (opt_title opts)
         else ret tt) ;;
        (* Delete existing messages *)
        delete_messages (opt_chatId opts)
  end ;;
  (* Insert new messages *)
  if (0 <? List.length (opt_messages opts))%nat
  then insert_messages (mapi (message_row (opt_chatId opts)) (opt_messages opts))
  else ret tt.

(** The chat row spread with [messages: msgs]. *)
Definition ChatWithMessages : Type := (Chat * list MessageRow)%type.

Definition getChat (userId chatId : string) : DbM (option ChatWithMessages) :=
  chat <- findFirst_chats (owned_by userId chatId) ;;
  match chat with
  | None => ret None
  | Some chat =>
      msgs <- findMany_messages chatId ;;
      ret (Some (chat, msgs))
  end.

End Store.

(** ** Vocabulary for the statements about the store *)

(** The row and the message rows a call writes. *)
Definition new_chat (o : UpsertOpts) : Chat :=
  {| chat_id := opt_chatId o; chat_userId := opt_userId o;
     chat_title := opt_title o |}.

Definition new_rows (o : UpsertOpts) : list MessageRow :=
  mapi (message_row (opt_chatId o)) (opt_messages o).

Definition retitled (o : UpsertOpts) (ch : Chat) (l : list Chat) : list Chat :=
  if negb (chat_title ch =? opt_title o)
  then map (fun c => if chat_id c =? opt_chatId o
                     then set_title (opt_title o) c else c) l
  else l.

(** Some chat row carries this id. *)
Definition chat_exists (chatId : string) (s : Db) : bool :=
  existsb (fun c => chat_id c =? chatId) (chats s).

(** A chat row with this id belongs to this user. *)
Definition owns (userId chatId : string) (s : Db) : bool :=
  existsb (owned_by userId chatId) (chats s).

(** Every message row belongs to a chat row. *)
Definition no_orphans (s : Db) : bool :=
  forallb (fun r => chat_exists (msg_chatId r) s) (messages s).

(** What the caller of [upsertChat] can see afterwards: whether the call
    was fulfilled, and what its own next [getChat] returns. *)
Definition observe (unique_chat_id : bool) (o : UpsertOpts) (s : Db)
  : bool * result (option ChatWithMessages) :=
  let '(r, s') := upsertChat unique_chat_id o s in
  (is_ok r, fst (getChat (opt_userId o) (opt_chatId o) s')).

(** ** The tool adapters (part_000, lines 120-166) *)

Section Tools.

(** The providers are network calls; they are parameters. *)
Variable crawlWebsite : string -> CrawlResult.
Variable searchSerper : string -> nat -> result (list OrganicResult).
Variable crawl_error_summary : list CrawlEntry -> string.

(** Modelled from the spec: [bulkCrawlWebsites] of [~/scraper], which is
    not among the sources.  Section 4.3: all URLs are fetched; every
    per-URL outcome is returned, successes included; the global flag is
    false as soon as one URL failed. *)
Definition bulkCrawlWebsites (urls : list string) : BulkCrawlResponse :=
  let results :=
    map (fun url => {| entry_url := url; entry_result := crawlWebsite url |})
        urls in
  let allSuccessful :=
    forallb (fun e => crawl_success (entry_result e)) results in
  {| bulk_success := allSuccessful;
     bulk_error := if allSuccessful then None
                   else Some (crawl_error_summary results);
     bulk_results := results |}.

(** [searchWeb.execute({ query })] *)
Definition searchWeb_execute (query : string) : result (list SearchHit) :=
  match searchSerper query 10 with
  | Ok organic =>
      Ok (map (fun r => {| hit_title := organic_title r;
                           hit_link := organic_link r;
                           hit_snippet := organic_snippet r;
                           hit_date := organic_date r |}) organic)
  | Err e => Err e
  end.

(** [scrapePages.execute({ urls })] *)
Definition scrapePages_execute (urls : list string) : ScrapePagesOutput :=
  let results := bulkCrawlWebsites urls in
  if negb (bulk_success results) then
    {| scrape_error := bulk_error results;
       scrape_results :=
         map (fun e =>
                {| page_url := entry_url e;
                   page_success := crawl_success (entry_result e);
                   page_data :=
                     Some (match entry_result e with
                           | CrawlSuccess data => data
                           | CrawlError error => error
                           end) |})
             (bulk_results results) |}
  else
    {| scrape_error := None;
       scrape_results :=
         map (fun e =>
                {| page_url := entry_url e;
                   page_success := crawl_success (entry_result e);
                   page_data :=
                     match entry_result e with
                     | CrawlSuccess data => Some data
                     | CrawlError _ => None
                     end |})
             (bulk_results results) |}.

(** How many of the URLs were crawled with success. *)
Definition succeeded (urls : list string) : nat :=
  List.length (filter (fun url => crawl_success (crawlWebsite url)) urls).

(** Modelled from the spec: the way the [ai] package runs a tool call.
    Section 4.1: a tool failure does not abort the loop, it reaches the
    model as an error payload in place of a result. *)
Definition execute_tool (a : ToolArgs) : ToolOutput :=
  match a with
  | SearchWebArgs query =>
      match searchWeb_execute query with
      | Ok hits => SearchWebOutput hits
      | Err e => ToolErrorPayload e
      end
  | ScrapePagesArgs urls => ScrapeOutput (scrapePages_execute urls)
  end.

(** ** The reasoning loop *)

(** What one model invocation yields: text, and the tool calls it asks
    for (none: the text is final). *)
Record StepOutput : Type := {
  step_text : string;
  step_toolCalls : list ToolArgs
}.

(** The model sees the prior messages and the parts produced so far. *)
Definition LanguageModel : Type :=
  list Message -> list MessagePart -> StepOutput.

Record Generation : Type := {
  gen_steps : nat;
  gen_parts : list MessagePart
}.

Variable model : LanguageModel.

(** The text of a step as message parts: a step without text leaves no
    text part. *)
Definition text_parts (t : string) : list MessagePart :=
  if t =? "" then [] else [TextPart t].

(** Modelled from the spec: the loop of [streamText] ([ai] package), of
    which the sources hold the call only.  Section 4.1: up to [fuel]
    steps; a step without tool calls ends the loop; otherwise the calls
    are executed, their results appended with state [result] and the
    model invoked again; when the ceiling is reached the output so far
    is final. *)
Fixpoint reasoning_loop (prior : list Message) (fuel steps : nat)
  (acc : list MessagePart) : Generation :=
  match fuel with
  | 0 => {| gen_steps := steps; gen_parts := acc |}
  | S fuel' =>
      let out := model prior acc in
      let acc' := acc ++ text_parts (step_text out) in
      match step_toolCalls out with
      | [] => {| gen_steps := S steps; gen_parts := acc' |}
      | calls =>
          reasoning_loop prior fuel' (S steps)
            (acc' ++ map (fun a => ToolInvocation (toolName a) a has_result
                                     (Some (execute_tool a))) calls)
      end
  end.

End Tools.

(** The text of a generation: its text parts, in order. *)
Fixpoint text_of (ps : list MessagePart) : string :=
  match ps with
  | [] => ""
  | TextPart t :: ps' => t ++ text_of ps'
  | ToolInvocation _ _ _ _ :: ps' => text_of ps'
  end.

(** ** The data stream and the world a request runs in *)

Inductive Frame : Type :=
| DataFrame (type chatId : string)      (* dataStream.writeData({ type, chatId }) *)
| TextFrame (delta : string)
| ToolCallFrame (name : string) (args : ToolArgs)
| ToolResultFrame (name : string) (output : ToolOutput)
| ErrorFrame (message : string).       (* what [onError] returned *)

(** [console.error(label, e)]; the label is empty for [console.error(e)]. *)
Record LogEntry : Type := {
  log_label : string;
  log_error : Failure
}.

Record World : Type := {
  db : Db;
  console : list LogEntry;
  telemetry_flushes : nat;      (* completed [langfuse.flushAsync()] calls *)
  wire : list Frame             (* frames written on the response so far *)
}.

Definition WorldM : Type -> Type := StateM World.

Definition liftDb {A} (m : DbM A) : WorldM A :=
  fun w =>
    let '(r, db') := m (db w) in
    (r, {| db := db'; console := console w;
           telemetry_flushes := telemetry_flushes w; wire := wire w |}).

Definition console_error (label : string) (e : Failure) : WorldM unit :=
  fun w =>
    (Ok tt, {| db := db w;
               console := console w ++ [{| log_label := label; log_error := e |}];
               telemetry_flushes := telemetry_flushes w; wire := wire w |}).

Definition flushAsync : WorldM unit :=
  fun w =>
    (Ok tt, {| db := db w; console := console w;
               telemetry_flushes := S (telemetry_flushes w); wire := wire w |}).

Definition write_frames (fs : list Frame) : WorldM unit :=
  fun w =>
    (Ok tt, {| db := db w; console := console w;
               telemetry_flushes := telemetry_flushes w;
               wire := wire w ++ fs |}).

Definition open_stream : WorldM unit :=
  fun w =>
    (Ok tt, {| db := db w; console := console w;
               telemetry_flushes := telemetry_flushes w; wire := [] |}).

(** [promise.catch(handler)] *)
Definition catch {S A} (m : StateM S A) (handler : Failure -> StateM S A)
  : StateM S A :=
  fun s =>
    match m s with
    | (Ok a, s') => (Ok a, s')
    | (Err e, s') => handler e s'
    end.

Definition frames_of_part (p : MessagePart) : list Frame :=
  match p with
  | TextPart t => [TextFrame t]
  | ToolInvocation name args _ (Some output) =>
      [ToolCallFrame name args; ToolResultFrame name output]
  | ToolInvocation name args _ None => [ToolCallFrame name args]
  end.

Definition frames_of (g : Generation) : list Frame :=
  flat_map frames_of_part (gen_parts g).

Definition is_new_chat_event (f : Frame) : bool :=
  match f with
  | DataFrame type _ => type =? "NEW_CHAT_CREATED"
  | _ => false
  end.

(** [messages[messages.length - 1]] *)
Definition last_message (messages : list Message) : option Message :=
  nth_error messages (List.length messages - 1).

(** [content.slice(0, 50) + "..."].  A character of the model's string
    stands for one UTF-16 code unit of the content, which is exact for
    ASCII content. *)
Definition title_of (m : Message) : string :=
  substring 0 50 (content m) ++ "...".

(** ** The chat route (part_000) *)

Record Session : Type := { session_user_id : string }.

Record RequestBody : Type := {
  body_messages : list Message;
  body_chatId : string;
  body_isNewChat : bool
}.

Inductive Outcome : Type :=
| Respond (status : nat) (text : string)   (* new Response(text, { status }) *)
| DataStream (frames : list Frame)         (* createDataStreamResponse(...) *)
| Rejected (e : Failure).                  (* the handler's promise rejects *)

Definition maxSteps : nat := 10.

Section Route.

Variable unique_chat_id : bool.
Variable crawlWebsite : string -> CrawlResult.
Variable searchSerper : string -> nat -> result (list OrganicResult).
Variable crawl_error_summary : list CrawlEntry -> string.
Variable model : LanguageModel.

(** [appendResponseMessages] of the [ai] package: a parameter. *)
Variable appendResponseMessages : list Message -> list Message -> list Message.

(** Modelled from the spec: [streamText] runs the reasoning loop under
    the step ceiling it is given.  The model is a total function: a
    generation that the provider or the transport breaks off is not in
    this model, and what is stated about a stream of this route is about
    turns whose generation completes. *)
Definition streamText (messages : list Message) (maxSteps : nat) : Generation :=
  reasoning_loop crawlWebsite searchSerper crawl_error_summary model
                 messages maxSteps 0 [].

(** [response.messages]: the assistant message that was generated. *)
Definition response_messages (g : Generation) : list Message :=
  [{| role := assistant; parts := gen_parts g; content := text_of (gen_parts g) |}].

(** Modelled from the spec: [result.mergeIntoDataStream(dataStream)]
    forwards the generated parts to the stream; [onFinish] runs once the
    generation is over, that is after its parts were written. *)
Definition mergeIntoDataStream (g : Generation)
  (onFinish : Generation -> WorldM unit) : WorldM unit :=
  write_frames (frames_of g) ;;
  onFinish g.

(** Modelled from the spec: [createDataStreamResponse({ execute, onError })]
    opens the stream and runs [execute]; a rejection goes to [onError],
    whose string is written as an error frame. *)
Definition createDataStreamResponse (execute : WorldM unit)
  (onError : Failure -> WorldM string) : World -> Outcome * World :=
  fun w =>
    let run :=
      open_stream ;;
      catch execute (fun e => msg <- onError e ;; write_frames [ErrorFrame msg]) in
    let '(_, w') := run w in
    (DataStream (wire w'), w').

(** [onFinish] of part_000, lines 167-189. *)
Definition onFinish (userId : string) (body : RequestBody) (g : Generation)
  : WorldM unit :=
  (* Merge the existing messages with the response messages *)
  let updatedMessages :=
    appendResponseMessages (body_messages body) (response_messages g) in
  match last_message (body_messages body) with
  | None => ret tt
  | Some lastMessage =>
      (* Save the complete chat history *)
      liftDb (upsertChat unique_chat_id
                {| opt_userId := userId;
                   opt_chatId := body_chatId body;
                   opt_title := title_of lastMessage;
                   opt_messages := updatedMessages |}) ;;
      (* Flush the trace to Langfuse *)
      flushAsync
  end.

(** [onError] of part_000, lines 201-204. *)
Definition onError (e : Failure) : WorldM string :=
  console_error "" e ;;
  ret "Oops, an error occurred!".

(** [execute] of part_000, lines 73-200. *)
Definition execute (userId : string) (body : RequestBody) : WorldM unit :=
  (* If this is a new chat, send the chat ID to the frontend *)
  (if body_isNewChat body
   then write_frames [DataFrame "NEW_CHAT_CREATED" (body_chatId body)]
   else ret tt) ;;
  let result := streamText (body_messages body) maxSteps in
  mergeIntoDataStream result (onFinish userId body).

(** [POST] of part_000, lines 25-206. *)
Definition POST (session : option Session) (body : RequestBody)
  : World -> Outcome * World :=
  fun w =>
    match session with
    | None => (Respond 401 "Unauthorized", w)
    | Some session =>
        let userId := session_user_id session in
        if (List.length (body_messages body) =? 0)%nat
        then (Respond 400 "No messages provided", w)
        else if body_isNewChat body then
          (* If this is a new chat, create it with the user's message *)
          let create :=
            match last_message (body_messages body) with
            | None => throw (TypeError "content")
            | Some m =>
                liftDb (upsertChat unique_chat_id
                          {| opt_userId := userId;
                             opt_chatId := body_chatId body;
                             opt_title := title_of m;
                             opt_messages := body_messages body |})
            end in
          match create w with
          | (Err e, w') => (Rejected e, w')
          | (Ok _, w') =>
              createDataStreamResponse (execute userId body) onError w'
          end
        else
          (* Verify the chat belongs to the user:
             db.query.chats.findFirst({ where: eq(chats.id, chatId) }) *)
          match find (fun c => chat_id c =? body_chatId body) (chats (db w)) with
          | None => (Respond 404 "Chat not found or unauthorized", w)
          | Some chat =>
              if negb (chat_userId chat =? userId)
              then (Respond 404 "Chat not found or unauthorized", w)
              else createDataStreamResponse (execute userId body) onError w
          end
    end.

(** [onFinish] of the day-1 route (route.ts, lines 86-103): the write is
    not awaited and its rejection is caught and logged. *)
Definition onFinish_day1 (userId currentChatId chatTitle : string)
  (messages : list Message) (g : Generation) : WorldM unit :=
  let updatedMessages := appendResponseMessages messages (response_messages g) in
  (* Save the updated messages to the database *)
  catch (liftDb (upsertChat unique_chat_id
                   {| opt_userId := userId;
                      opt_chatId := currentChatId;
                      opt_title := chatTitle;
                      opt_messages := updatedMessages |}))
        (fun error => console_error "Failed to save chat:" error).

End Route.

(** The frames a response carries; a plain response carries none. *)
Definition frames_sent (o : Outcome) : list Frame :=
  match o with
  | DataStream frames => frames
  | _ => []
  end.

Definition new_chat_frames (body : RequestBody) : list Frame :=
  if body_isNewChat body
  then [DataFrame "NEW_CHAT_CREATED" (body_chatId body)]
  else [].

(** ** Sample data *)

Definition text_message (r : Role) (t : string) : Message :=
  {| role := r; parts := [TextPart t]; content := t |}.

Definition alice_chat : Chat :=
  {| chat_id := "c1"; chat_userId := "alice"; chat_title := "Hello..." |}.

(** Alice owns chat c1, which holds two messages. *)
Definition alice_db : Db :=
  {| chats := [alice_chat];
     messages := mapi (message_row "c1")
                      [text_message user "Hello";
                       text_message assistant "Hi Alice"] |}.

(** Bob writes under Alice's chat id. *)
Definition bob_opts : UpsertOpts :=
  {| opt_userId := "bob"; opt_chatId := "c1"; opt_title := "Weather...";
     opt_messages := [text_message user "Weather"] |}.

(** Alice rewrites her own chat. *)
Definition alice_opts : UpsertOpts :=
  {| opt_userId := "alice"; opt_chatId := "c1"; opt_title := "Hello again...";
     opt_messages := [text_message user "Hello";
                      text_message assistant "Hi Alice";
                      text_message user "Hello again"] |}.

(** Bob opens chat c2 without messages; Alice empties her chat c1. *)
Definition bob_empty_opts : UpsertOpts :=
  {| opt_userId := "bob"; opt_chatId := "c2"; opt_title := "New...";
     opt_messages := [] |}.

Definition alice_empty_opts : UpsertOpts :=
  {| opt_userId := "alice"; opt_chatId := "c1"; opt_title := "Hello...";
     opt_messages := [] |}.

Definition empty_world (s : Db) : World :=
  {| db := s; console := []; telemetry_flushes := 0; wire := [] |}.

(** Providers for the examples: one page answers, one times out. *)
Definition sample_crawl (url : string) : CrawlResult :=
  if url =? "https://valid.example" then CrawlSuccess "# Valid page"
  else CrawlError "timeout".

Definition sample_search (q : string) (num : nat) : result (list OrganicResult) :=
  Ok [{| organic_title := "Weather in Paris";
         organic_link := "https://valid.example";
         organic_snippet := "Sunny";
         organic_date := None |}].

Definition sample_summary (results : list CrawlEntry) : string :=
  "Failed to crawl some websites".

(** A model that answers at once, and one that asks for a search at
    every step. *)
Definition final_model : LanguageModel :=
  fun _ _ => {| step_text := "It is sunny in [Paris](https://valid.example).";
                step_toolCalls := [] |}.

Definition eager_model : LanguageModel :=
  fun _ _ => {| step_text := "Searching.";
                step_toolCalls := [SearchWebArgs "weather in Paris"] |}.

Definition bob_body (isNewChat : bool) : RequestBody :=
  {| body_messages := [text_message user "Weather"];
     body_chatId := "c1";
     body_isNewChat := isNewChat |}.

(** ** The rest of the sources *)

(** Rows in the order a comparison asks for; [orderBy_order] is the
    instance for ascending [order]. *)
Fixpoint insert_by {A} (before : A -> A -> bool) (x : A) (l : list A) : list A :=
  match l with
  | [] => [x]
  | y :: l' => if before x y then x :: l else y :: insert_by before x l'
  end.

Definition sort_by {A} (before : A -> A -> bool) (l : list A) : list A :=
  fold_right (insert_by before) [] l.

Section Listing.

(** Column [updatedAt] of table [chats] is not a field of [Chat]; what
    the store holds for a row is read through this parameter. *)
Variable updatedAt : Chat -> nat.

(** [getChats] (part_001, lines 73-79):
    [db.query.chats.findMany({ where: eq(chats.userId, userId),
    orderBy: desc(chats.updatedAt) })] *)
Definition getChats (userId : string) : DbM (list Chat) :=
  fun db =>
    (Ok (sort_by (fun a b => (updatedAt b <=? updatedAt a)%nat)
                 (filter (fun c => chat_userId c =? userId) (chats db))),
     db).

End Listing.

(** The store after a series of [upsertChat] calls, failed ones included. *)
Definition run_upserts (unique_chat_id : bool) (calls : list UpsertOpts) (s : Db)
  : Db :=
  fold_left (fun s o => snd (upsertChat unique_chat_id o s)) calls s.

(** The key of a chat row: its id and its owner. *)
Definition chat_key (c : Chat) : string * string := (chat_id c, chat_userId c).

(** The ownership test of the routes: the row the lookup by id returns
    is there and belongs to the user
    ([!chat || chat.userId !== session.user.id] is false). *)
Definition verified (userId chatId : string) (s : Db) : bool :=
  match find (fun c => chat_id c =? chatId) (chats s) with
  | Some chat => chat_userId chat =? userId
  | None => false
  end.

(** ** The day-1 route (route.ts) *)

(** How a call of [streamText] ends. *)
Inductive StreamRun : Type :=
| Completed (result : Generation)
| Broken (sent : list MessagePart) (e : Failure).


(** [session?.user]: a session may come without a user. *)
Record Day1Session : Type := { day1_user : option Session }.

(** The body of the day-1 route: [chatId] is optional. *)
Record Day1Body : Type := {
  day1_messages : list Message;
  day1_chatId : option string
}.

(** [chatId] as a condition: undefined and the empty string are falsy. *)
Definition chatId_given (chatId : option string) : option string :=
  match chatId with
  | Some id => if id =? "" then None else Some id
  | None => None
  end.

(** [messages[messages.length - 1]?.content?.slice(0, 100) || "New Chat"] *)
Definition chatTitle_day1 (messages : list Message) : string :=
  match last_message messages with
  | Some m =>
      let t := substring 0 100 (content m) in
      if t =? "" then "New Chat" else t
  | None => "New Chat"
  end.

Section Day1Route.

Variable unique_chat_id : bool.

(** [crypto.randomUUID()]: the id drawn for this request. *)
Variable randomUUID : string.

(** [streamText] with the tools of the day-1 route: how it runs for a
    message list is a parameter.  The run completes, or breaks off after
    some parts with a failure (a message list the call refuses, the
    provider, the transport). *)
Variable generate : list Message -> StreamRun.

Variable appendResponseMessages : list Message -> list Message -> list Message.

(** [onError] of route.ts, lines 108-111. *)
Definition onError_day1 (e : Failure) : WorldM string :=
  console_error "" e ;;
  ret "Oops, an error occured!".

(** [execute] of route.ts, lines 54-107. *)
Definition execute_day1 (userId currentChatId chatTitle : string)
  (body : Day1Body) : WorldM unit :=
  (* Send the new chat ID if this is a new chat *)
  (match chatId_given (day1_chatId body) with
   | None => write_frames [DataFrame "NEW_CHAT_CREATED" currentChatId]
   | Some _ => ret tt
   end) ;;
  match generate (day1_messages body) with
  | Completed result =>
      mergeIntoDataStream result
        (onFinish_day1 unique_chat_id appendResponseMessages
                       userId currentChatId chatTitle (day1_messages body))
  | Broken sent e =>
      (* the parts sent so far, then the rejection; [onFinish] is not run *)
      write_frames (flat_map frames_of_part sent) ;;
      throw e
  end.

(** [POST] of route.ts, lines 17-113. *)
Definition POST_day1 (session : option Day1Session) (body : Day1Body)
  : World -> Outcome * World :=
  fun w =>
    match match session with Some s => day1_user s | None => None end with
    | None => (Respond 401 "Unauthorized", w)
    | Some account =>
        let userId := session_user_id account in
        let messages := day1_messages body in
        (* Create a new chat if no chatId is provided *)
        let currentChatId :=
          match chatId_given (day1_chatId body) with
          | Some id => id
          | None => randomUUID
          end in
        let chatTitle := chatTitle_day1 messages in
        match chatId_given (day1_chatId body) with
        | None =>
            (* Create the chat early before streaming starts *)
            match liftDb (upsertChat unique_chat_id
                            {| opt_userId := userId;
                               opt_chatId := currentChatId;
                               opt_title := chatTitle;
                               opt_messages := messages |}) w with
            | (Err e, w') => (Rejected e, w')
            | (Ok _, w') =>
                createDataStreamResponse
                  (execute_day1 userId currentChatId chatTitle body)
                  onError_day1 w'
            end
        | Some _ =>
            (* Verify the chat belongs to the user *)
            match find (fun c => chat_id c =? currentChatId) (chats (db w)) with
            | None => (Respond 404 "Chat not found or unauthorized", w)
            | Some chat =>
                if negb (chat_userId chat =? userId)
                then (Respond 404 "Chat not found or unauthorized", w)
                else createDataStreamResponse
                       (execute_day1 userId currentChatId chatTitle body)
                       onError_day1 w
            end
        end
    end.

End Day1Route.

(** The text the frames of a stream carry. *)
Fixpoint text_of_frames (fs : list Frame) : string :=
  match fs with
  | [] => ""
  | TextFrame delta :: fs' => delta ++ text_of_frames fs'
  | _ :: fs' => text_of_frames fs'
  end.

(** Content within ASCII. *)
Fixpoint ascii_only (s : string) : bool :=
  match s with
  | EmptyString => true
  | String a s' => (nat_of_ascii a <? 128)%nat && ascii_only s'
  end.

(* ===================================================================== *)
(** * Part II. Properties                                                 *)
(* ===================================================================== *)

(** ** Lists, rows and ordering *)

Lemma mapi_from_length {A B} (f : A -> nat -> B) (l : list A) (i : nat) :
  List.length (mapi_from f i l) = List.length l.
Proof.
  revert i; induction l as [|x l IH]; intros i; simpl; [reflexivity|].
  now rewrite IH.
Qed.

Lemma mapi_from_nth_error {A B} (f : A -> nat -> B) (l : list A) (i k : nat) :
  nth_error (mapi_from f i l) k = option_map (fun x => f x (i + k)) (nth_error l k).
Proof.
  revert i k; induction l as [|x l IH]; intros i k.
  - destruct k; reflexivity.
  - destruct k as [|k]; simpl.
    + now rewrite Nat.add_0_r.
    + rewrite IH. now replace (S i + k) with (i + S k) by lia.
Qed.

Lemma rows_chatId (c : string) (msgs : list Message) (i : nat) (r : MessageRow) :
  In r (mapi_from (message_row c) i msgs) -> msg_chatId r = c.
Proof.
  revert i; induction msgs as [|m msgs IH]; intros i; simpl; [tauto|].
  intros [<-|H]; [reflexivity | eauto].
Qed.

Lemma rows_order_lower (c : string) (msgs : list Message) (i : nat) (r : MessageRow) :
  In r (mapi_from (message_row c) i msgs) -> i <= msg_order r.
Proof.
  revert i; induction msgs as [|m msgs IH]; intros i; simpl; [tauto|].
  intros [<-|H]; [simpl; lia|]. apply IH in H. lia.
Qed.

Lemma insert_by_order_head (r : MessageRow) (l : list MessageRow) :
  (forall x, In x l -> msg_order r <= msg_order x) ->
  insert_by_order r l = r :: l.
Proof.
  destruct l as [|x l]; simpl; [reflexivity|].
  intros H. destruct (Nat.leb_spec (msg_order r) (msg_order x)) as [_|Hlt].
  - reflexivity.
  - specialize (H x (or_introl eq_refl)). lia.
Qed.

(** Rows numbered by position are already in ascending order. *)
Lemma orderBy_order_rows (c : string) (msgs : list Message) (i : nat) :
  orderBy_order (mapi_from (message_row c) i msgs)
  = mapi_from (message_row c) i msgs.
Proof.
  revert i; induction msgs as [|m msgs IH]; intros i; simpl; [reflexivity|].
  unfold orderBy_order in *. rewrite IH.
  apply insert_by_order_head. intros x Hx.
  apply rows_order_lower in Hx. simpl. lia.
Qed.

Lemma filter_all {A} (p : A -> bool) (l : list A) :
  (forall x, In x l -> p x = true) -> filter p l = l.
Proof.
  induction l as [|x l IH]; simpl; intros H; [reflexivity|].
  rewrite (H x (or_introl eq_refl)). f_equal. apply IH. auto.
Qed.

Lemma filter_none {A} (p : A -> bool) (l : list A) :
  (forall x, In x l -> p x = false) -> filter p l = [].
Proof.
  induction l as [|x l IH]; simpl; intros H; [reflexivity|].
  rewrite (H x (or_introl eq_refl)). apply IH. auto.
Qed.

Lemma filter_rows_same (c : string) (msgs : list Message) :
  filter (fun r => msg_chatId r =? c) (mapi (message_row c) msgs)
  = mapi (message_row c) msgs.
Proof.
  apply filter_all. intros r Hr. apply rows_chatId in Hr.
  rewrite Hr. apply String.eqb_refl.
Qed.

Lemma filter_rows_other (c : string) (msgs : list Message) :
  filter (fun r => negb (msg_chatId r =? c)) (mapi (message_row c) msgs) = [].
Proof.
  apply filter_none. intros r Hr. apply rows_chatId in Hr.
  rewrite Hr, String.eqb_refl. reflexivity.
Qed.

Lemma filter_deleted (c : string) (l : list MessageRow) :
  filter (fun r => msg_chatId r =? c)
         (filter (fun r => negb (msg_chatId r =? c)) l) = [].
Proof.
  apply filter_none. intros r Hr. apply filter_In in Hr.
  destruct Hr as [_ Hr]. now destruct (msg_chatId r =? c).
Qed.

Lemma find_map_invariant {A} (p : A -> bool) (f : A -> A) (l : list A) :
  (forall x, p (f x) = p x) ->
  find p (map f l) = option_map f (find p l).
Proof.
  intros Hp. induction l as [|x l IH]; simpl; [reflexivity|].
  rewrite Hp. destruct (p x); [reflexivity | exact IH].
Qed.

Lemma owned_by_true (u c : string) (ch : Chat) :
  owned_by u c ch = true <-> chat_id ch = c /\ chat_userId ch = u.
Proof.
  unfold owned_by. rewrite andb_true_iff, !String.eqb_eq. tauto.
Qed.

(** ** upsertChat, branch by branch *)

Section StoreFacts.

Variable pk : bool.

(** No chat of this user under this id: the create branch. *)
Lemma upsertChat_create (o : UpsertOpts) (s : Db) :
  find (owned_by (opt_userId o) (opt_chatId o)) (chats s) = None ->
  upsertChat pk o s =
  if pk && existsb (fun c => chat_id c =? opt_chatId o) (chats s)
  then (Err (UniqueViolation "chats"), s)
  else (Ok tt, {| chats := chats s ++ [new_chat o];
                  messages := messages s ++ new_rows o |}).
Proof.
  intros Hfind. unfold upsertChat, bind, findFirst_chats, insert_chats.
  rewrite Hfind. simpl.
  destruct (pk && existsb _ (chats s)); [reflexivity|].
  unfold new_rows, new_chat. destruct (opt_messages o) as [|m ms]; simpl.
  - unfold ret. now rewrite app_nil_r.
  - reflexivity.
Qed.

(** A chat of this user under this id: the replace branch. *)
Lemma upsertChat_replace (o : UpsertOpts) (s : Db) (ch : Chat) :
  find (owned_by (opt_userId o) (opt_chatId o)) (chats s) = Some ch ->
  upsertChat pk o s =
  (Ok tt, {| chats := retitled o ch (chats s);
             messages := filter (fun r => negb (msg_chatId r =? opt_chatId o))
                                (messages s) ++ new_rows o |}).
Proof.
  intros Hfind. unfold upsertChat, bind, findFirst_chats.
  rewrite Hfind. simpl.
  apply find_some in Hfind. destruct Hfind as [_ Hown].
  apply owned_by_true in Hown. destruct Hown as [_ Hu].
  rewrite Hu, String.eqb_refl. simpl.
  unfold retitled, new_rows.
  destruct (negb (chat_title ch =? opt_title o)); simpl;
    (destruct (opt_messages o) as [|m ms]; simpl;
     [unfold ret; now rewrite app_nil_r | reflexivity]).
Qed.

(** The thrown ownership error of [upsertChat] is never reached: the
    lookup that precedes it only returns chats of the calling user. *)
Lemma upsertChat_no_ownership_conflict (o : UpsertOpts) (s : Db) :
  fst (upsertChat pk o s) <> Err OwnershipConflict.
Proof.
  destruct (find (owned_by (opt_userId o) (opt_chatId o)) (chats s)) as [ch|] eqn:Hfind.
  - rewrite (upsertChat_replace o s ch Hfind). discriminate.
  - rewrite (upsertChat_create o s Hfind).
    destruct (pk && existsb _ (chats s)); discriminate.
Qed.

Lemma find_owned_retitled (o : UpsertOpts) (ch : Chat) (l : list Chat) :
  find (owned_by (opt_userId o) (opt_chatId o)) l = Some ch ->
  find (owned_by (opt_userId o) (opt_chatId o)) (retitled o ch l)
  = Some (set_title (opt_title o) ch).
Proof.
  intros Hfind. unfold retitled.
  destruct (String.eqb_spec (chat_title ch) (opt_title o)) as [Ht|Ht]; simpl.
  - rewrite Hfind. f_equal. destruct ch; unfold set_title; simpl in *. now subst.
  - rewrite find_map_invariant.
    + rewrite Hfind. simpl. f_equal.
      apply find_some in Hfind. destruct Hfind as [_ Hown].
      apply owned_by_true in Hown. destruct Hown as [Hc _].
      rewrite Hc, String.eqb_refl. reflexivity.
    + intros x. destruct (chat_id x =? opt_chatId o); reflexivity.
Qed.

End StoreFacts.

(** ** Ownership lookups *)

Lemma owns_false_find (u c : string) (s : Db) :
  owns u c s = false <-> find (owned_by u c) (chats s) = None.
Proof.
  unfold owns. induction (chats s) as [|x l IH]; simpl; [tauto|].
  destruct (owned_by u c x); simpl; [split; discriminate | exact IH].
Qed.

Lemma chat_exists_false (c : string) (s : Db) (ch : Chat) :
  chat_exists c s = false -> In ch (chats s) -> chat_id ch <> c.
Proof.
  unfold chat_exists. intros Hex Hin Heq.
  assert (existsb (fun c0 => chat_id c0 =? c) (chats s) = true) as Habs.
  { apply existsb_exists. exists ch. split; [exact Hin|]. now apply String.eqb_eq. }
  congruence.
Qed.

Lemma chat_exists_false_owns (u c : string) (s : Db) :
  chat_exists c s = false -> owns u c s = false.
Proof.
  intros Hex. unfold owns. apply not_true_is_false. intros H.
  apply existsb_exists in H. destruct H as [ch [Hin Hown]].
  apply owned_by_true in Hown. destruct Hown as [Hc _].
  exact (chat_exists_false c s ch Hex Hin Hc).
Qed.

(** ** getChat *)

Lemma getChat_found (u c : string) (s : Db) (ch : Chat) :
  find (owned_by u c) (chats s) = Some ch ->
  getChat u c s =
  (Ok (Some (ch, orderBy_order
                   (filter (fun r => msg_chatId r =? c) (messages s)))), s).
Proof.
  intros H. unfold getChat, bind, findFirst_chats, findMany_messages, ret.
  now rewrite H.
Qed.

Lemma getChat_missing (u c : string) (s : Db) :
  find (owned_by u c) (chats s) = None -> getChat u c s = (Ok None, s).
Proof.
  intros H. unfold getChat, bind, findFirst_chats, ret. now rewrite H.
Qed.

(** After the replace branch, [getChat] gives the retitled chat and the
    rows just written, in the order they were given. *)
Lemma getChat_after_replace (o : UpsertOpts) (s : Db) (ch : Chat) :
  find (owned_by (opt_userId o) (opt_chatId o)) (chats s) = Some ch ->
  let s' := {| chats := retitled o ch (chats s);
               messages := filter (fun r => negb (msg_chatId r =? opt_chatId o))
                                  (messages s) ++ new_rows o |} in
  getChat (opt_userId o) (opt_chatId o) s'
  = (Ok (Some (set_title (opt_title o) ch, new_rows o)), s').
Proof.
  intros Hfind s'.
  rewrite (getChat_found (opt_userId o) (opt_chatId o) s' _
             (find_owned_retitled o ch (chats s) Hfind)).
  unfold s'; simpl. rewrite filter_app, filter_deleted. simpl.
  unfold new_rows. rewrite filter_rows_same.
  unfold mapi. now rewrite orderBy_order_rows.
Qed.

(** ** Calling upsertChat twice *)

Lemma find_append {A} (p : A -> bool) (l l' : list A) :
  find p (l ++ l') = match find p l with
                     | Some x => Some x
                     | None => find p l'
                     end.
Proof.
  induction l as [|x l IH]; simpl; [reflexivity|].
  destruct (p x); [reflexivity | exact IH].
Qed.

Lemma filter_twice {A} (p : A -> bool) (l : list A) :
  filter p (filter p l) = filter p l.
Proof.
  apply filter_all. intros x Hx. apply filter_In in Hx. tauto.
Qed.

Lemma retitled_same_title (o : UpsertOpts) (ch : Chat) (l : list Chat) :
  chat_title ch = opt_title o -> retitled o ch l = l.
Proof.
  intros H. unfold retitled. now rewrite H, String.eqb_refl.
Qed.

Lemma no_orphans_no_rows (c : string) (s : Db) :
  no_orphans s = true -> chat_exists c s = false ->
  filter (fun r => negb (msg_chatId r =? c)) (messages s) = messages s.
Proof.
  intros Hno Hex. apply filter_all. intros r Hr.
  unfold no_orphans in Hno. rewrite forallb_forall in Hno.
  specialize (Hno r Hr).
  destruct (String.eqb_spec (msg_chatId r) c) as [Heq|Hne]; [|reflexivity].
  rewrite Heq in Hno. congruence.
Qed.

(** A second call with the same arguments ends as the first one did, in
    the same state, provided the chat id is not held by somebody else
    (or the store refuses a second row with the id). *)
Lemma upsertChat_twice (pk : bool) (o : UpsertOpts) (s : Db) :
  no_orphans s = true ->
  (pk = true \/
   (chat_exists (opt_chatId o) s = true ->
    owns (opt_userId o) (opt_chatId o) s = true)) ->
  upsertChat pk o (snd (upsertChat pk o s)) = upsertChat pk o s.
Proof.
  intros Hno Hheld.
  destruct (find (owned_by (opt_userId o) (opt_chatId o)) (chats s))
    as [ch|] eqn:Hfind.
  - (* replace, then replace again *)
    rewrite (upsertChat_replace pk o s ch Hfind). simpl.
    pose proof (find_owned_retitled o ch (chats s) Hfind) as Hfind'.
    match goal with
    | |- upsertChat _ _ ?s1 = _ => rewrite (upsertChat_replace pk o s1 _ Hfind')
    end.
    simpl. rewrite retitled_same_title by reflexivity.
    rewrite filter_app, filter_twice.
    unfold new_rows at 1. rewrite filter_rows_other, app_nil_r. reflexivity.
  - rewrite (upsertChat_create pk o s Hfind).
    fold (chat_exists (opt_chatId o) s).
    destruct (chat_exists (opt_chatId o) s) eqn:Hex.
    + (* the id is held by somebody else *)
      assert (pk = true) as ->.
      { destruct Hheld as [Hpk|Hown]; [exact Hpk|].
        apply owns_false_find in Hfind. rewrite Hown in Hfind by reflexivity.
        discriminate. }
      simpl. rewrite (upsertChat_create true o s Hfind).
      fold (chat_exists (opt_chatId o) s). now rewrite Hex.
    + (* create, then replace *)
      rewrite andb_false_r. simpl.
      assert (find (owned_by (opt_userId o) (opt_chatId o))
                   (chats s ++ [new_chat o]) = Some (new_chat o)) as Hnew.
      { rewrite find_append, Hfind. simpl. unfold owned_by, new_chat; simpl.
        now rewrite !String.eqb_refl. }
      match goal with
      | |- upsertChat _ _ ?s1 = _ => rewrite (upsertChat_replace pk o s1 _ Hnew)
      end.
      simpl.
      rewrite retitled_same_title by reflexivity.
      rewrite filter_app. unfold new_rows at 1.
      rewrite filter_rows_other, app_nil_r.
      now rewrite (no_orphans_no_rows (opt_chatId o) s Hno Hex).
Qed.

Lemma owns_true_find (u c : string) (s : Db) :
  owns u c s = true ->
  exists ch, find (owned_by u c) (chats s) = Some ch /\ In ch (chats s)
             /\ chat_id ch = c /\ chat_userId ch = u.
Proof.
  intros H.
  destruct (find (owned_by u c) (chats s)) as [ch|] eqn:Hfind.
  - exists ch. split; [reflexivity|].
    apply find_some in Hfind. destruct Hfind as [Hin Hown].
    apply owned_by_true in Hown. tauto.
  - apply owns_false_find in Hfind. congruence.
Qed.

(** ** The store: statements of the specification *)

(** C1 (the code departs from the claim).  When the chat id exists and
    none of its rows belongs to the caller, [upsertChat] does not end
    with the ownership error it is written to throw: its lookup finds
    nothing, so it takes the create branch.  A store that accepts a
    second row with the id gets a new chat row and the new message rows;
    a store that refuses it rejects the insert with its own error and
    stays as it was. *)
Theorem upsertChat_foreign_chat_id (pk : bool) (o : UpsertOpts) (s : Db) :
  chat_exists (opt_chatId o) s = true ->
  owns (opt_userId o) (opt_chatId o) s = false ->
  fst (upsertChat pk o s) <> Err OwnershipConflict /\
  upsertChat pk o s =
    if pk then (Err (UniqueViolation "chats"), s)
    else (Ok tt, {| chats := chats s ++ [new_chat o];
                    messages := messages s ++ new_rows o |}).
Proof.
  intros Hex Hown. split; [apply upsertChat_no_ownership_conflict|].
  apply owns_false_find in Hown. rewrite (upsertChat_create pk o s Hown).
  fold (chat_exists (opt_chatId o) s). rewrite Hex.
  now destruct pk.
Qed.

Lemma upsertChat_foreign_chat_id_witness :
  upsertChat false bob_opts alice_db
  = (Ok tt, {| chats := [alice_chat; new_chat bob_opts];
               messages := messages alice_db ++ new_rows bob_opts |})
  /\ upsertChat true bob_opts alice_db = (Err (UniqueViolation "chats"), alice_db).
Proof.
  split.
  - exact (proj2 (upsertChat_foreign_chat_id false bob_opts alice_db eq_refl eq_refl)).
  - exact (proj2 (upsertChat_foreign_chat_id true bob_opts alice_db eq_refl eq_refl)).
Defined.

(** C2, as stated, fails.  Bob writes under chat id c1 once when nobody
    holds it and once when Alice does.  What Bob can see differs in both
    kinds of store: a store that refuses the duplicate id rejects the
    call, and a store that accepts it lets Bob's next [getChat] return
    Alice's rows among his own. *)
Lemma upsertChat_reveals_foreign_chat :
  observe true bob_opts empty_db <> observe true bob_opts alice_db /\
  observe false bob_opts empty_db <> observe false bob_opts alice_db.
Proof.
  split; vm_compute; intros H; inversion H.
Qed.

(** C2 (amended).  For a chat id that the requesting user does not own,
    [getChat] returns null and leaves the store alone, whether no chat
    has the id or another user holds it. *)
Theorem getChat_not_owned (u c : string) (s : Db) :
  owns u c s = false -> getChat u c s = (Ok None, s).
Proof.
  intros H. apply getChat_missing. now apply owns_false_find.
Qed.

Lemma getChat_not_owned_witness :
  getChat "bob" "c1" alice_db = (Ok None, alice_db) /\
  getChat "bob" "c1" empty_db = (Ok None, empty_db).
Proof.
  split.
  - exact (getChat_not_owned "bob" "c1" alice_db eq_refl).
  - exact (getChat_not_owned "bob" "c1" empty_db eq_refl).
Defined.

Lemma new_rows_orders (c : string) (msgs : list Message) (i : nat) :
  map msg_order (mapi_from (message_row c) i msgs) = seq i (List.length msgs).
Proof.
  revert i; induction msgs as [|m msgs IH]; intros i; simpl; [reflexivity|].
  now rewrite IH.
Qed.

(** The rows written for a message list, field by field: the message at
    position [k] becomes the row of the chat with its role, its parts
    and [order] [k]. *)
Lemma new_rows_nth (o : UpsertOpts) (k : nat) (m : Message) :
  nth_error (opt_messages o) k = Some m ->
  nth_error (new_rows o) k
  = Some {| msg_chatId := opt_chatId o; msg_role := role m;
            msg_parts := parts m; msg_order := k |}.
Proof.
  intros Hk. unfold new_rows, mapi. now rewrite mapi_from_nth_error, Hk.
Qed.

Lemma new_rows_in (o : UpsertOpts) (r : MessageRow) :
  In r (new_rows o) ->
  exists k m, nth_error (opt_messages o) k = Some m /\
              r = {| msg_chatId := opt_chatId o; msg_role := role m;
                     msg_parts := parts m; msg_order := k |}.
Proof.
  intros Hr. apply In_nth_error in Hr. destruct Hr as [k Hk].
  unfold new_rows, mapi in Hk. rewrite mapi_from_nth_error in Hk.
  destruct (nth_error (opt_messages o) k) as [m|] eqn:Hm; [|discriminate].
  exists k, m. split; [exact Hm|]. simpl in Hk. now injection Hk as <-.
Qed.

(** C8.  On a chat the caller owns, [upsertChat] succeeds.  Afterwards
    every message row of the chat is the row of one of the given
    messages, with that message's role and parts and with its zero-based
    position as [order], so that no earlier row of the chat is left; the
    row of every given message is there; and the caller's next [getChat]
    returns exactly these rows in the given sequence, their [order]
    running 0, 1, 2, ... *)
Theorem upsertChat_replaces_messages (pk : bool) (o : UpsertOpts) (s : Db) :
  owns (opt_userId o) (opt_chatId o) s = true ->
  let s' := snd (upsertChat pk o s) in
  let row (m : Message) (k : nat) :=
    {| msg_chatId := opt_chatId o; msg_role := role m;
       msg_parts := parts m; msg_order := k |} in
  fst (upsertChat pk o s) = Ok tt /\
  (forall r, In r (messages s') -> msg_chatId r = opt_chatId o ->
             exists k m, nth_error (opt_messages o) k = Some m /\ r = row m k) /\
  (forall k m, nth_error (opt_messages o) k = Some m ->
               In (row m k) (messages s')) /\
  exists ch rows,
    In ch (chats s) /\ chat_id ch = opt_chatId o /\
    chat_userId ch = opt_userId o /\
    getChat (opt_userId o) (opt_chatId o) s'
    = (Ok (Some (set_title (opt_title o) ch, rows)), s') /\
    List.length rows = List.length (opt_messages o) /\
    (forall k m, nth_error (opt_messages o) k = Some m ->
                 nth_error rows k = Some (row m k)) /\
    map msg_order rows = seq 0 (List.length (opt_messages o)).
Proof.
  intros Hown s' row. apply owns_true_find in Hown.
  destruct Hown as [ch [Hfind [Hin [Hc Hu]]]].
  unfold s'. rewrite (upsertChat_replace pk o s ch Hfind). simpl.
  split; [reflexivity|]. split.
  { intros r Hr Hrc. apply in_app_or in Hr. destruct Hr as [Hr|Hr].
    - apply filter_In in Hr. destruct Hr as [_ Hr].
      rewrite Hrc, String.eqb_refl in Hr. discriminate.
    - now apply new_rows_in. }
  split.
  { intros k m Hk. apply in_or_app. right.
    exact (nth_error_In _ _ (new_rows_nth o k m Hk)). }
  exists ch, (new_rows o). repeat (split; [assumption|]).
  split; [exact (getChat_after_replace o s ch Hfind)|].
  split; [apply mapi_from_length|].
  split; [intros k m Hk; now apply new_rows_nth|].
  apply new_rows_orders.
Qed.

Lemma upsertChat_replaces_messages_witness :
  fst (upsertChat true alice_opts alice_db) = Ok tt /\
  exists rows,
    fst (getChat "alice" "c1" (snd (upsertChat true alice_opts alice_db)))
    = Ok (Some (set_title "Hello again..." alice_chat, rows)) /\
    nth_error rows 2
    = Some {| msg_chatId := "c1"; msg_role := user;
              msg_parts := [TextPart "Hello again"]; msg_order := 2 |} /\
    map msg_order rows = [0; 1; 2].
Proof.
  destruct (upsertChat_replaces_messages true alice_opts alice_db eq_refl)
    as [Hok [_ [_ [ch [rows [Hin [_ [_ [Hget [_ [Hnth Hord]]]]]]]]]]].
  split; [exact Hok|].
  destruct Hin as [<-|[]]. exists rows.
  split; [exact (f_equal fst Hget)|].
  split; [exact (Hnth 2 (text_message user "Hello again") eq_refl) | exact Hord].
Defined.

(** C10.  An empty message list is accepted.  Under an id that no chat
    has, the chat row is created and the message table is untouched.  On
    a chat the caller owns, the message rows of the chat are deleted,
    none is written, and the caller's next [getChat] returns the chat
    with no messages. *)
Theorem upsertChat_empty_messages (pk : bool) (o : UpsertOpts) (s : Db) :
  opt_messages o = [] ->
  (chat_exists (opt_chatId o) s = false ->
   upsertChat pk o s
   = (Ok tt, {| chats := chats s ++ [new_chat o]; messages := messages s |}))
  /\
  (owns (opt_userId o) (opt_chatId o) s = true ->
   let s' := snd (upsertChat pk o s) in
   fst (upsertChat pk o s) = Ok tt /\
   messages s' = filter (fun r => negb (msg_chatId r =? opt_chatId o)) (messages s) /\
   (forall r, In r (messages s') -> msg_chatId r <> opt_chatId o) /\
   exists ch, In ch (chats s) /\ chat_id ch = opt_chatId o
              /\ chat_userId ch = opt_userId o
              /\ getChat (opt_userId o) (opt_chatId o) s'
                 = (Ok (Some (set_title (opt_title o) ch, [])), s')).
Proof.
  intros Hempty.
  assert (new_rows o = []) as Hrows by (unfold new_rows; now rewrite Hempty).
  split.
  - intros Hex.
    pose proof (chat_exists_false_owns (opt_userId o) _ _ Hex) as Hown.
    apply owns_false_find in Hown. rewrite (upsertChat_create pk o s Hown).
    fold (chat_exists (opt_chatId o) s).
    now rewrite Hex, andb_false_r, Hrows, app_nil_r.
  - intros Hown s'. apply owns_true_find in Hown.
    destruct Hown as [ch [Hfind [Hin [Hc Hu]]]].
    pose proof (getChat_after_replace o s ch Hfind) as Hget.
    unfold s'. rewrite (upsertChat_replace pk o s ch Hfind). simpl in *.
    rewrite Hrows in *. rewrite app_nil_r in *.
    split; [reflexivity|]. split; [reflexivity|]. split.
    { intros r Hr Hrc. apply filter_In in Hr. destruct Hr as [_ Hr].
      rewrite Hrc, String.eqb_refl in Hr. discriminate. }
    exists ch. repeat (split; [assumption|]). exact Hget.
Qed.

Lemma upsertChat_empty_messages_witness :
  upsertChat false bob_empty_opts alice_db
  = (Ok tt, {| chats := [alice_chat; new_chat bob_empty_opts];
               messages := messages alice_db |})
  /\ snd (upsertChat false alice_empty_opts alice_db)
     = {| chats := [alice_chat]; messages := [] |}.
Proof.
  split.
  - exact (proj1 (upsertChat_empty_messages false bob_empty_opts alice_db eq_refl)
                 eq_refl).
  - destruct (proj2 (upsertChat_empty_messages false alice_empty_opts alice_db eq_refl)
                    eq_refl) as [_ [Hmsgs _]].
    cbv zeta in Hmsgs.
    destruct (snd (upsertChat false alice_empty_opts alice_db)) as [cs ms] eqn:E.
    simpl in Hmsgs. rewrite Hmsgs.
    apply (f_equal chats) in E. vm_compute in E. now rewrite <- E.
Defined.

(** ** scrapePages *)

Lemma forallb_filter_length {A} (p : A -> bool) (l : list A) :
  forallb p l = false <-> List.length (filter p l) < List.length l.
Proof.
  induction l as [|x l IH]; simpl.
  - split; [discriminate | lia].
  - pose proof (filter_length_le p l) as Hle.
    destruct (p x); simpl.
    + rewrite IH. lia.
    + split; [lia | reflexivity].
Qed.

Lemma forallb_entries (crawl : string -> CrawlResult) (urls : list string) :
  forallb (fun e => crawl_success (entry_result e))
          (map (fun url => {| entry_url := url; entry_result := crawl url |}) urls)
  = forallb (fun url => crawl_success (crawl url)) urls.
Proof.
  induction urls as [|u urls IH]; simpl; [reflexivity | now rewrite IH].
Qed.

(** C4.  [scrapePages] over N URLs returns N per-URL outcomes, one per
    input URL and in the input order, each with the success of its own
    crawl, the successful ones with their data also when others failed;
    the overall success flag of the crawl is false, and the returned
    object carries an [error], exactly when fewer than N succeeded. *)
Theorem scrapePages_outcomes (crawl : string -> CrawlResult)
  (summary : list CrawlEntry -> string) (urls : list string) :
  let r := bulkCrawlWebsites crawl summary urls in
  let out := scrapePages_execute crawl summary urls in
  List.length (bulk_results r) = List.length urls /\
  List.length (scrape_results out) = List.length urls /\
  map page_url (scrape_results out) = urls /\
  map page_success (scrape_results out)
  = map (fun url => crawl_success (crawl url)) urls /\
  (forall k url data,
      nth_error urls k = Some url -> crawl url = CrawlSuccess data ->
      nth_error (scrape_results out) k
      = Some {| page_url := url; page_success := true; page_data := Some data |}) /\
  (bulk_success r = false <-> succeeded crawl urls < List.length urls) /\
  (scrape_error out <> None <-> succeeded crawl urls < List.length urls).
Proof.
  intros r out.
  assert (bulk_success r = false <-> succeeded crawl urls < List.length urls) as Hflag.
  { unfold r, bulkCrawlWebsites, succeeded. simpl.
    rewrite forallb_entries. apply forallb_filter_length. }
  split; [unfold r; simpl; now rewrite length_map|].
  unfold out, scrapePages_execute. fold r.
  destruct (bulk_success r) eqn:Hok; simpl.
  - (* every crawl succeeded *)
    split; [now rewrite !length_map|].
    split; [rewrite !map_map; simpl; apply map_id|].
    split; [now rewrite !map_map|].
    split.
    { intros k url data Hk Hcrawl. rewrite map_map.
      rewrite (map_nth_error _ _ _ Hk). simpl. now rewrite Hcrawl. }
    split; [exact Hflag|].
    rewrite <- Hflag. split; [congruence | discriminate].
  - (* some crawl failed *)
    split; [now rewrite !length_map|].
    split; [rewrite !map_map; simpl; apply map_id|].
    split; [now rewrite !map_map|].
    split.
    { intros k url data Hk Hcrawl. rewrite map_map.
      rewrite (map_nth_error _ _ _ Hk). simpl. now rewrite Hcrawl. }
    split; [exact Hflag|].
    rewrite <- Hflag. split; [reflexivity|].
    intros _. unfold r, bulkCrawlWebsites in *. simpl in *.
    rewrite Hok. discriminate.
Qed.

(** ** The reasoning loop *)

Lemma string_append_assoc (s1 s2 s3 : string) :
  ((s1 ++ s2) ++ s3 = s1 ++ (s2 ++ s3))%string.
Proof.
  induction s1 as [|a s1 IH]; simpl; [reflexivity | now rewrite IH].
Qed.

Lemma string_append_nil_r (t : string) : (t ++ "")%string = t.
Proof.
  induction t as [|a t IH]; simpl; [reflexivity | now rewrite IH].
Qed.

Lemma text_of_app (ps qs : list MessagePart) :
  text_of (ps ++ qs) = (text_of ps ++ text_of qs)%string.
Proof.
  induction ps as [|p ps IH]; simpl; [reflexivity|].
  destruct p as [t|name args st output]; [|exact IH].
  now rewrite IH, string_append_assoc.
Qed.

Lemma text_of_frames_app (fs gs : list Frame) :
  text_of_frames (fs ++ gs) = (text_of_frames fs ++ text_of_frames gs)%string.
Proof.
  induction fs as [|f fs IH]; simpl; [reflexivity|].
  destruct f; try exact IH. now rewrite IH, string_append_assoc.
Qed.

(** The frames of a generation carry its text. *)
Lemma text_of_frames_parts (ps : list MessagePart) :
  text_of_frames (flat_map frames_of_part ps) = text_of ps.
Proof.
  induction ps as [|p ps IH]; simpl; [reflexivity|].
  rewrite text_of_frames_app, IH.
  destruct p as [t|name args st [output|]]; simpl;
    [now rewrite string_append_nil_r | reflexivity..].
Qed.

Lemma text_of_text_parts (t : string) : text_of (text_parts t) = t.
Proof.
  unfold text_parts. destruct (String.eqb_spec t "") as [->|_]; simpl;
    [reflexivity | apply string_append_nil_r].
Qed.

Section LoopFacts.

Variable crawl : string -> CrawlResult.
Variable search : string -> nat -> result (list OrganicResult).
Variable summary : list CrawlEntry -> string.
Variable model : LanguageModel.

Let loop := reasoning_loop crawl search summary model.

Lemma reasoning_loop_steps_bound (prior : list Message) (fuel steps : nat)
  (acc : list MessagePart) :
  steps <= gen_steps (loop prior fuel steps acc) <= steps + fuel.
Proof.
  unfold loop. revert steps acc.
  induction fuel as [|fuel IH]; intros steps acc; simpl; [lia|].
  destruct (step_toolCalls (model prior _)) as [|a calls]; simpl; [lia|].
  match goal with |- context [reasoning_loop _ _ _ _ _ _ _ ?a'] =>
    specialize (IH (S steps) a') end.
  lia.
Qed.

(** A model that asks for tool calls at every step is stopped by the
    ceiling, after exactly that many invocations. *)
Lemma reasoning_loop_ceiling (prior : list Message) (fuel steps : nat)
  (acc : list MessagePart) :
  (forall ctx ps, step_toolCalls (model ctx ps) <> []) ->
  gen_steps (loop prior fuel steps acc) = steps + fuel.
Proof.
  intros Hcalls. unfold loop. revert steps acc.
  induction fuel as [|fuel IH]; intros steps acc; simpl; [lia|].
  destruct (step_toolCalls (model prior _)) as [|a calls] eqn:E.
  - exfalso. exact (Hcalls _ _ E).
  - rewrite IH. lia.
Qed.

(** With room for one step at least, the model is invoked. *)
Lemma reasoning_loop_first_step (prior : list Message) (fuel steps : nat)
  (acc : list MessagePart) :
  S steps <= gen_steps (loop prior (S fuel) steps acc).
Proof.
  unfold loop. simpl.
  destruct (step_toolCalls (model prior _)) as [|a calls]; simpl; [lia|].
  match goal with |- context [reasoning_loop _ _ _ _ _ _ _ ?a'] =>
    pose proof (reasoning_loop_steps_bound prior fuel (S steps) a') as H end.
  unfold loop in H. lia.
Qed.

Lemma text_of_tool_results (calls : list ToolArgs) :
  text_of (map (fun a => ToolInvocation (toolName a) a has_result
                           (Some (execute_tool crawl search summary a))) calls)
  = "".
Proof.
  induction calls as [|a calls IH]; simpl; [reflexivity | exact IH].
Qed.

(** The loop only adds to the parts it starts from. *)
Lemma reasoning_loop_extends (prior : list Message) (fuel steps : nat)
  (acc : list MessagePart) :
  exists rest, gen_parts (loop prior fuel steps acc) = acc ++ rest.
Proof.
  unfold loop. revert steps acc.
  induction fuel as [|fuel IH]; intros steps acc; simpl.
  - exists []. now rewrite app_nil_r.
  - destruct (step_toolCalls (model prior acc)) as [|a calls]; simpl.
    + now eexists.
    + match goal with |- context [reasoning_loop _ _ _ _ _ _ _ ?a'] =>
        destruct (IH (S steps) a') as [rest Hrest] end.
      rewrite Hrest, <- !app_assoc. now eexists.
Qed.

(** One more step of room changes nothing of what was produced within
    the smaller room: it can only add to it. *)
Lemma reasoning_loop_one_more (prior : list Message) (fuel steps : nat)
  (acc : list MessagePart) :
  exists rest,
    gen_parts (loop prior (S fuel) steps acc)
    = gen_parts (loop prior fuel steps acc) ++ rest.
Proof.
  unfold loop. revert steps acc.
  induction fuel as [|fuel IH]; intros steps acc.
  - apply (reasoning_loop_extends prior 1 steps acc).
  - change (reasoning_loop crawl search summary model prior (S (S fuel)) steps acc)
      with (let out := model prior acc in
            let acc' := acc ++ text_parts (step_text out) in
            match step_toolCalls out with
            | [] => {| gen_steps := S steps; gen_parts := acc' |}
            | calls =>
                reasoning_loop crawl search summary model prior (S fuel) (S steps)
                  (acc' ++ map (fun a => ToolInvocation (toolName a) a has_result
                                           (Some (execute_tool crawl search summary a)))
                               calls)
            end).
    change (reasoning_loop crawl search summary model prior (S fuel) steps acc)
      with (let out := model prior acc in
            let acc' := acc ++ text_parts (step_text out) in
            match step_toolCalls out with
            | [] => {| gen_steps := S steps; gen_parts := acc' |}
            | calls =>
                reasoning_loop crawl search summary model prior fuel (S steps)
                  (acc' ++ map (fun a => ToolInvocation (toolName a) a has_result
                                           (Some (execute_tool crawl search summary a)))
                               calls)
            end).
    cbv zeta. destruct (step_toolCalls (model prior acc)) as [|a calls].
    + exists []. now rewrite app_nil_r.
    + apply IH.
Qed.

(** The soft cutoff: what is returned at a ceiling is the beginning of
    what any higher ceiling returns. *)
Lemma reasoning_loop_soft_cutoff (prior : list Message) (fuel more steps : nat)
  (acc : list MessagePart) :
  exists rest,
    gen_parts (loop prior (fuel + more) steps acc)
    = gen_parts (loop prior fuel steps acc) ++ rest.
Proof.
  induction more as [|more IH].
  - rewrite Nat.add_0_r. exists []. now rewrite app_nil_r.
  - destruct IH as [rest Hrest].
    destruct (reasoning_loop_one_more prior (fuel + more) steps acc) as [rest' H].
    replace (fuel + S more) with (S (fuel + more)) by lia.
    rewrite H, Hrest, <- app_assoc. now eexists.
Qed.

(** With room for a step, the response opens with the first step's text. *)
Lemma reasoning_loop_first_text (prior : list Message) (fuel steps : nat)
  (acc : list MessagePart) :
  exists rest,
    gen_parts (loop prior (S fuel) steps acc)
    = acc ++ text_parts (step_text (model prior acc)) ++ rest.
Proof.
  unfold loop. simpl.
  destruct (step_toolCalls (model prior acc)) as [|a calls]; simpl.
  - exists []. now rewrite app_nil_r.
  - match goal with |- context [reasoning_loop _ _ _ _ _ _ _ ?a'] =>
      destruct (reasoning_loop_extends prior fuel (S steps) a') as [rest Hrest] end.
    unfold loop in Hrest. rewrite Hrest, <- !app_assoc. now eexists.
Qed.

End LoopFacts.

Lemma scrapePages_outcomes_witness :
  nth_error (scrape_results
               (scrapePages_execute sample_crawl sample_summary
                  ["https://valid.example"; "https://timeout.example"])) 0
  = Some {| page_url := "https://valid.example"; page_success := true;
            page_data := Some "# Valid page" |}
  /\ bulk_success (bulkCrawlWebsites sample_crawl sample_summary
                     ["https://valid.example"; "https://timeout.example"]) = false.
Proof.
  pose proof (scrapePages_outcomes sample_crawl sample_summary
                ["https://valid.example"; "https://timeout.example"])
    as [_ [_ [_ [_ [Hdata [Hflag _]]]]]].
  split.
  - apply (Hdata 0 "https://valid.example" "# Valid page"); reflexivity.
  - apply Hflag. vm_compute. lia.
Defined.

(** ** The route *)

Lemma frames_of_no_event (g : Generation) :
  filter is_new_chat_event (frames_of g) = [].
Proof.
  unfold frames_of. induction (gen_parts g) as [|p ps IH]; simpl; [reflexivity|].
  rewrite filter_app, IH, app_nil_r.
  destruct p as [t|name args st [output|]]; reflexivity.
Qed.

Lemma new_chat_frames_events (body : RequestBody) :
  filter is_new_chat_event (new_chat_frames body) = new_chat_frames body.
Proof.
  unfold new_chat_frames. destruct (body_isNewChat body); reflexivity.
Qed.

Section RouteFacts.

Variable pk : bool.
Variable crawl : string -> CrawlResult.
Variable search : string -> nat -> result (list OrganicResult).
Variable summary : list CrawlEntry -> string.
Variable model : LanguageModel.
Variable append : list Message -> list Message -> list Message.

Let generation (body : RequestBody) : Generation :=
  streamText crawl search summary model (body_messages body) maxSteps.

Let run_execute := execute pk crawl search summary model append.
Let run_onFinish := onFinish pk append.

(** [execute] writes the new-chat event if any, then the generated
    frames, and only then runs [onFinish]. *)
Lemma execute_then_onFinish (u : string) (body : RequestBody) (w : World) :
  run_execute u body w =
  run_onFinish u body (generation body)
    {| db := db w; console := console w;
       telemetry_flushes := telemetry_flushes w;
       wire := wire w ++ new_chat_frames body ++ frames_of (generation body) |}.
Proof.
  unfold run_execute, run_onFinish, generation, execute, mergeIntoDataStream,
    new_chat_frames, bind, write_frames, ret.
  destruct (body_isNewChat body); simpl.
  - now rewrite <- app_assoc.
  - reflexivity.
Qed.

(** [onFinish] leaves the console and the wire as they are. *)
Lemma onFinish_keeps_wire (u : string) (body : RequestBody) (g : Generation)
  (w : World) :
  wire (snd (run_onFinish u body g w)) = wire w /\
  console (snd (run_onFinish u body g w)) = console w.
Proof.
  unfold run_onFinish, onFinish.
  destruct (last_message (body_messages body)) as [m|]; [|split; reflexivity].
  unfold bind, liftDb, flushAsync.
  destruct (upsertChat pk _ (db w)) as [[[]|e] db']; split; reflexivity.
Qed.

(** [createDataStreamResponse] with the route's [onError], by the way
    [execute] ends. *)
Lemma createDataStreamResponse_onError (exec : WorldM unit) (w : World) :
  createDataStreamResponse exec onError w =
  let opened := {| db := db w; console := console w;
                   telemetry_flushes := telemetry_flushes w; wire := [] |} in
  match exec opened with
  | (Ok _, w') => (DataStream (wire w'), w')
  | (Err e, w') =>
      let frames := wire w' ++ [ErrorFrame "Oops, an error occurred!"] in
      (DataStream frames,
       {| db := db w';
          console := console w' ++ [{| log_label := ""; log_error := e |}];
          telemetry_flushes := telemetry_flushes w';
          wire := frames |})
  end.
Proof.
  unfold createDataStreamResponse, bind, open_stream, catch, onError,
    console_error, write_frames, ret, bind.
  simpl. destruct (exec _) as [[[]|e] w']; reflexivity.
Qed.

(** The response stream: the new-chat event if any, the generated
    frames, and one error frame if [onFinish] rejected. *)
Lemma stream_response (u : string) (body : RequestBody) (w : World) :
  let out := createDataStreamResponse (run_execute u body) onError w in
  let finished :=
    run_onFinish u body (generation body)
      {| db := db w; console := console w;
         telemetry_flushes := telemetry_flushes w;
         wire := new_chat_frames body ++ frames_of (generation body) |} in
  match fst finished with
  | Ok _ =>
      fst out = DataStream (new_chat_frames body ++ frames_of (generation body))
      /\ console (snd out) = console w
  | Err e =>
      fst out = DataStream (new_chat_frames body ++ frames_of (generation body)
                            ++ [ErrorFrame "Oops, an error occurred!"])
      /\ console (snd out) = console w ++ [{| log_label := ""; log_error := e |}]
  end.
Proof.
  intros out finished. unfold out.
  rewrite createDataStreamResponse_onError. cbv zeta.
  rewrite execute_then_onFinish. simpl.
  fold finished.
  pose proof (onFinish_keeps_wire u body (generation body)
    {| db := db w; console := console w;
       telemetry_flushes := telemetry_flushes w;
       wire := new_chat_frames body ++ frames_of (generation body) |}) as [Hwire Hcon].
  fold finished in Hwire, Hcon. simpl in Hwire, Hcon.
  destruct finished as [[[]|e] w']; simpl in *.
  - now rewrite Hwire, Hcon.
  - rewrite Hwire, Hcon. rewrite <- app_assoc. split; reflexivity.
Qed.

(** Whatever [onFinish] does, the generated frames are in the response. *)
Lemma stream_response_answer (u : string) (body : RequestBody) (w : World) :
  exists tail,
    fst (createDataStreamResponse (run_execute u body) onError w)
    = DataStream (new_chat_frames body ++ frames_of (generation body) ++ tail).
Proof.
  pose proof (stream_response u body w) as H. cbv zeta in H.
  destruct (fst (run_onFinish u body (generation body) _)) as [[]|e];
    destruct H as [H _]; rewrite H.
  - exists []. now rewrite app_nil_r.
  - now exists [ErrorFrame "Oops, an error occurred!"].
Qed.

(** After the generated frames comes nothing, or the one error frame of
    a save that was rejected. *)
Lemma stream_response_tail (u : string) (body : RequestBody) (w : World) :
  exists tail,
    fst (createDataStreamResponse (run_execute u body) onError w)
    = DataStream (new_chat_frames body ++ frames_of (generation body) ++ tail)
    /\ (tail = [] \/
        (tail = [ErrorFrame "Oops, an error occurred!"] /\
         exists m e,
           last_message (body_messages body) = Some m /\
           fst (upsertChat pk
                  {| opt_userId := u; opt_chatId := body_chatId body;
                     opt_title := title_of m;
                     opt_messages :=
                       append (body_messages body)
                              (response_messages (generation body)) |}
                  (db w)) = Err e)).
Proof.
  pose proof (stream_response u body w) as H. cbv zeta in H.
  unfold run_onFinish, onFinish in H.
  destruct (last_message (body_messages body)) as [m|] eqn:Hlast.
  - unfold bind, liftDb, flushAsync in H. simpl in H.
    fold (generation body) in H.
    destruct (upsertChat pk _ (db w)) as [[[]|e] db'] eqn:Hsave;
      simpl in H; destruct H as [H _]; rewrite H.
    + exists []. split; [now rewrite app_nil_r | now left].
    + eexists. split; [reflexivity|]. right. split; [reflexivity|].
      exists m, e. split; [reflexivity|]. exact (f_equal fst Hsave).
  - simpl in H. destruct H as [H _]. rewrite H.
    exists []. split; [now rewrite app_nil_r | now left].
Qed.

Lemma stream_response_frames (u : string) (body : RequestBody) (w : World) :
  exists rest,
    fst (createDataStreamResponse (run_execute u body) onError w)
    = DataStream (new_chat_frames body ++ rest)
    /\ filter is_new_chat_event rest = [].
Proof.
  pose proof (stream_response u body w) as H. cbv zeta in H.
  destruct (fst (run_onFinish u body (generation body) _)) as [[]|e];
    destruct H as [H _]; rewrite H.
  - exists (frames_of (generation body)). split; [reflexivity|].
    apply frames_of_no_event.
  - exists (frames_of (generation body) ++ [ErrorFrame "Oops, an error occurred!"]).
    split; [reflexivity|].
    rewrite filter_app, frames_of_no_event. reflexivity.
Qed.

(** Whatever [POST] answers, its frames are either none or the ones of
    [stream_response_frames]. *)
Lemma POST_frames (session : option Session) (body : RequestBody) (w : World) :
  let fs := frames_sent (fst (POST pk crawl search summary model append
                                   session body w)) in
  fs = [] \/
  exists rest, fs = new_chat_frames body ++ rest
               /\ filter is_new_chat_event rest = [].
Proof.
  intros fs. unfold fs, POST.
  destruct session as [session|]; [|left; reflexivity].
  destruct (List.length (body_messages body) =? 0)%nat; [left; reflexivity|].
  destruct (body_isNewChat body) eqn:Hnew.
  - match goal with |- context [match ?c w with _ => _ end] =>
      destruct (c w) as [[[]|e] w'] end; [|left; reflexivity].
    right. destruct (stream_response_frames (session_user_id session) body w')
      as [rest [Hout Hrest]].
    exists rest. unfold run_execute in Hout. rewrite Hout. now split.
  - destruct (find _ (chats (db w))) as [chat|]; [|left; reflexivity].
    destruct (negb (chat_userId chat =? session_user_id session));
      [left; reflexivity|].
    right. destruct (stream_response_frames (session_user_id session) body w)
      as [rest [Hout Hrest]].
    exists rest. unfold run_execute in Hout. rewrite Hout. now split.
Qed.

End RouteFacts.

Lemma chat_exists_find (c : string) (s : Db) :
  chat_exists c s = true ->
  exists ch, find (fun c0 => chat_id c0 =? c) (chats s) = Some ch
             /\ In ch (chats s) /\ chat_id ch = c.
Proof.
  unfold chat_exists. intros H.
  destruct (find (fun c0 => chat_id c0 =? c) (chats s)) as [ch|] eqn:Hfind.
  - exists ch. split; [reflexivity|]. apply find_some in Hfind.
    destruct Hfind as [Hin Hid]. apply String.eqb_eq in Hid. now split.
  - apply existsb_exists in H. destruct H as [ch [Hin Hid]].
    pose proof (find_none _ _ Hfind ch Hin) as Hno. simpl in Hno. congruence.
Qed.

Lemma owns_false_row (u c : string) (s : Db) (ch : Chat) :
  owns u c s = false -> In ch (chats s) -> chat_id ch = c ->
  (chat_userId ch =? u) = false.
Proof.
  intros Hown Hin Hid. apply owns_false_find in Hown.
  pose proof (find_none _ _ Hown ch Hin) as Hno. unfold owned_by in Hno.
  rewrite Hid, String.eqb_refl in Hno. exact Hno.
Qed.

(** ** The route: statements of the specification *)

(** C9, as stated, fails: the handler looks at the message list before
    it looks at the chat.  Bob posts an empty message list with
    isNewChat=false against Alice's chat id and is answered 400, not 404;
    no row is touched. *)
Lemma POST_empty_messages_400 :
  let request :=
    POST true sample_crawl sample_search sample_summary final_model (@app Message)
         (Some {| session_user_id := "bob" |})
         {| body_messages := []; body_chatId := "c1"; body_isNewChat := false |}
         (empty_world alice_db) in
  chat_exists "c1" alice_db = true /\
  owns "bob" "c1" alice_db = false /\
  request = (Respond 400 "No messages provided", empty_world alice_db) /\
  fst request <> Respond 404 "Chat not found or unauthorized".
Proof.
  cbv zeta. repeat split; try reflexivity. vm_compute. discriminate.
Qed.

(** C9 (amended).  A request of an authenticated user with a non-empty
    message list and isNewChat=false, for a chat id that exists and of
    which no row belongs to the requesting user, is answered with status
    404, and the world (chat rows, message rows, console, stream) is the
    one the request found. *)
Theorem POST_foreign_chat_404 (pk : bool) (crawl : string -> CrawlResult)
  (search : string -> nat -> result (list OrganicResult))
  (summary : list CrawlEntry -> string) (model : LanguageModel)
  (append : list Message -> list Message -> list Message)
  (session : Session) (body : RequestBody) (w : World) :
  body_messages body <> [] ->
  body_isNewChat body = false ->
  chat_exists (body_chatId body) (db w) = true ->
  owns (session_user_id session) (body_chatId body) (db w) = false ->
  POST pk crawl search summary model append (Some session) body w
  = (Respond 404 "Chat not found or unauthorized", w).
Proof.
  intros Hmsgs Hnew Hex Hown. unfold POST.
  destruct (body_messages body) as [|m ms] eqn:Hbody; [congruence|].
  simpl. rewrite Hnew.
  destruct (chat_exists_find _ _ Hex) as [ch [Hfind [Hin Hid]]].
  rewrite Hfind.
  now rewrite (owns_false_row _ _ _ ch Hown Hin Hid).
Qed.

Lemma POST_foreign_chat_404_witness :
  POST true sample_crawl sample_search sample_summary final_model (@app Message)
       (Some {| session_user_id := "bob" |}) (bob_body false)
       (empty_world alice_db)
  = (Respond 404 "Chat not found or unauthorized", empty_world alice_db).
Proof.
  apply POST_foreign_chat_404; try reflexivity. discriminate.
Defined.

(** C7.  Among the frames of any response, the new-chat event occurs at
    most once; it does not occur when the request has isNewChat=false;
    and where it occurs it carries the request's chat id and is the
    first frame, so that no model frame precedes it. *)
Theorem new_chat_event_once (pk : bool) (crawl : string -> CrawlResult)
  (search : string -> nat -> result (list OrganicResult))
  (summary : list CrawlEntry -> string) (model : LanguageModel)
  (append : list Message -> list Message -> list Message)
  (session : option Session) (body : RequestBody) (w : World) :
  let fs := frames_sent (fst (POST pk crawl search summary model append
                                   session body w)) in
  List.length (filter is_new_chat_event fs) <= 1 /\
  (body_isNewChat body = false -> filter is_new_chat_event fs = []) /\
  (forall pre f post,
      fs = pre ++ f :: post -> is_new_chat_event f = true ->
      body_isNewChat body = true /\
      f = DataFrame "NEW_CHAT_CREATED" (body_chatId body) /\
      pre = []).
Proof.
  intros fs.
  destruct (POST_frames pk crawl search summary model append session body w)
    as [Hnone|[rest [Hfs Hrest]]]; fold fs in Hnone || fold fs in Hfs.
  - rewrite Hnone. simpl. split; [lia|]. split; [reflexivity|].
    intros pre f post Heq. now destruct pre.
  - rewrite Hfs, filter_app, Hrest, app_nil_r, new_chat_frames_events.
    unfold new_chat_frames.
    destruct (body_isNewChat body); simpl.
    + split; [lia|]. split; [discriminate|].
      intros pre f post Heq Hev.
      destruct pre as [|x pre]; simpl in Heq; injection Heq as Hx Hrest'.
      * subst f. now repeat split.
      * exfalso. subst rest.
        rewrite filter_app in Hrest. simpl in Hrest. rewrite Hev in Hrest.
        now destruct (filter is_new_chat_event pre).
    + split; [lia|]. split; [reflexivity|].
      intros pre f post Heq Hev. exfalso. subst rest.
      rewrite filter_app in Hrest. simpl in Hrest. rewrite Hev in Hrest.
      now destruct (filter is_new_chat_event pre).
Qed.

Lemma new_chat_event_once_witness :
  let fs := frames_sent (fst (POST false sample_crawl sample_search sample_summary
                                   final_model (@app Message)
                                   (Some {| session_user_id := "bob" |})
                                   (bob_body true) (empty_world empty_db))) in
  fs = [DataFrame "NEW_CHAT_CREATED" "c1";
        TextFrame "It is sunny in [Paris](https://valid.example)."]
  /\ List.length (filter is_new_chat_event fs) <= 1
  /\ filter is_new_chat_event
       (frames_sent (fst (POST false sample_crawl sample_search sample_summary
                               final_model (@app Message)
                               (Some {| session_user_id := "alice" |})
                               {| body_messages := [text_message user "Hello"];
                                  body_chatId := "c1";
                                  body_isNewChat := false |}
                               (empty_world alice_db)))) = [].
Proof.
  intros fs. split; [reflexivity|]. split.
  - apply (new_chat_event_once false sample_crawl sample_search sample_summary
             final_model (@app Message) (Some {| session_user_id := "bob" |})
             (bob_body true) (empty_world empty_db)).
  - apply (new_chat_event_once false sample_crawl sample_search sample_summary
             final_model (@app Message) (Some {| session_user_id := "alice" |})
             {| body_messages := [text_message user "Hello"];
                body_chatId := "c1"; body_isNewChat := false |}
             (empty_world alice_db)).
    reflexivity.
Defined.

(** C3.  When the write of [onFinish] fails, the response still carries
    every generated frame, after the new-chat event if there is one; the
    failure is written to the console, and one error frame closes the
    stream.  In the day-1 route the rejection is caught inside
    [onFinish]: it is logged, the callback is fulfilled and the stream
    is left as it is. *)
Theorem persistence_failure_keeps_answer (pk : bool)
  (crawl : string -> CrawlResult)
  (search : string -> nat -> result (list OrganicResult))
  (summary : list CrawlEntry -> string) (model : LanguageModel)
  (append : list Message -> list Message -> list Message)
  (u : string) (e : Failure) (w : World) :
  (forall (body : RequestBody) (lastMessage : Message),
      let g := streamText crawl search summary model (body_messages body) maxSteps in
      let out := createDataStreamResponse
                   (execute pk crawl search summary model append u body)
                   onError w in
      last_message (body_messages body) = Some lastMessage ->
      fst (upsertChat pk
             {| opt_userId := u; opt_chatId := body_chatId body;
                opt_title := title_of lastMessage;
                opt_messages := append (body_messages body) (response_messages g) |}
             (db w)) = Err e ->
      fst out = DataStream (new_chat_frames body ++ frames_of g
                            ++ [ErrorFrame "Oops, an error occurred!"])
      /\ console (snd out) = console w ++ [{| log_label := ""; log_error := e |}])
  /\
  (forall (currentChatId chatTitle : string) (messages : list Message)
          (g : Generation),
      let finished := onFinish_day1 pk append u currentChatId chatTitle messages g w in
      fst (upsertChat pk
             {| opt_userId := u; opt_chatId := currentChatId;
                opt_title := chatTitle;
                opt_messages := append messages (response_messages g) |}
             (db w)) = Err e ->
      fst finished = Ok tt
      /\ console (snd finished)
         = console w ++ [{| log_label := "Failed to save chat:"; log_error := e |}]
      /\ wire (snd finished) = wire w).
Proof.
  split.
  - intros body lastMessage g out Hlast Hfail.
    pose proof (stream_response pk crawl search summary model append u body w) as H.
    cbv zeta in H. fold g in H.
    unfold onFinish in H. rewrite Hlast in H.
    unfold bind, liftDb, flushAsync in H. simpl in H.
    destruct (upsertChat pk _ (db w)) as [r db']. simpl in Hfail. subst r.
    simpl in H. exact H.
  - intros currentChatId chatTitle messages g finished Hfail.
    unfold finished, onFinish_day1, catch, liftDb, console_error.
    destruct (upsertChat pk _ (db w)) as [r db']. simpl in Hfail. subst r.
    simpl. repeat split; reflexivity.
Qed.

Lemma persistence_failure_keeps_answer_witness :
  fst (createDataStreamResponse
         (execute true sample_crawl sample_search sample_summary final_model
                  (@app Message) "bob" (bob_body false))
         onError (empty_world alice_db))
  = DataStream [TextFrame "It is sunny in [Paris](https://valid.example).";
                ErrorFrame "Oops, an error occurred!"]
  /\ fst (onFinish_day1 true (@app Message) "bob" "c1" "Weather"
                        [text_message user "Weather"]
                        {| gen_steps := 1; gen_parts := [TextPart "Sunny."] |}
                        (empty_world alice_db)) = Ok tt.
Proof.
  destruct (persistence_failure_keeps_answer true sample_crawl sample_search
              sample_summary final_model (@app Message) "bob"
              (UniqueViolation "chats") (empty_world alice_db)) as [Hmain Hday1].
  split.
  - apply (Hmain (bob_body false) (text_message user "Weather")); reflexivity.
  - apply (Hday1 "c1" "Weather" [text_message user "Weather"]
                 {| gen_steps := 1; gen_parts := [TextPart "Sunny."] |}).
    reflexivity.
Defined.

(** C6.  Under the configured ceiling of 10 steps the loop invokes the
    model at least once and at most 10 times whatever the model answers;
    a model that asks for tool calls at every step is invoked exactly 10
    times and the loop ends there.  Reaching the ceiling is a soft
    cutoff: what the loop returns is the beginning of what any higher
    ceiling would return, it opens with the text of the first step, and
    the frames of the generation carry its text.  The route answers with
    a data stream of these frames; an error frame follows them only when
    the save of [onFinish] was rejected, never because of the ceiling. *)
Theorem streamText_step_ceiling (crawl : string -> CrawlResult)
  (search : string -> nat -> result (list OrganicResult))
  (summary : list CrawlEntry -> string) (model : LanguageModel)
  (messages : list Message) :
  let run := streamText crawl search summary model messages in
  let g := run maxSteps in
  maxSteps = 10 /\
  1 <= gen_steps g <= 10 /\
  ((forall ctx ps, step_toolCalls (model ctx ps) <> []) -> gen_steps g = 10) /\
  (forall more, exists rest,
      gen_parts (run (maxSteps + more)) = gen_parts g ++ rest /\
      text_of (gen_parts (run (maxSteps + more)))
      = (text_of (gen_parts g) ++ text_of rest)%string) /\
  (exists rest,
      text_of (gen_parts g) = (step_text (model messages []) ++ rest)%string) /\
  text_of_frames (frames_of g) = text_of (gen_parts g) /\
  (forall pk append u chatId isNewChat w,
      let body := {| body_messages := messages; body_chatId := chatId;
                     body_isNewChat := isNewChat |} in
      exists tail,
        fst (createDataStreamResponse
               (execute pk crawl search summary model append u body) onError w)
        = DataStream (new_chat_frames body ++ frames_of g ++ tail) /\
        (tail = [] \/
         (tail = [ErrorFrame "Oops, an error occurred!"] /\
          exists m e,
            last_message messages = Some m /\
            fst (upsertChat pk
                   {| opt_userId := u; opt_chatId := chatId;
                      opt_title := title_of m;
                      opt_messages := append messages (response_messages g) |}
                   (db w)) = Err e))).
Proof.
  intros run g. unfold g, run, streamText. split; [reflexivity|]. split.
  { pose proof (reasoning_loop_steps_bound crawl search summary model
                  messages maxSteps 0 []) as Hup.
    pose proof (reasoning_loop_first_step crawl search summary model
                  messages 9 0 []) as Hlow.
    unfold maxSteps in *. lia. }
  split.
  { intros Hcalls.
    now rewrite (reasoning_loop_ceiling crawl search summary model
                   messages maxSteps 0 [] Hcalls). }
  split.
  { intros more.
    destruct (reasoning_loop_soft_cutoff crawl search summary model
                messages maxSteps more 0 []) as [rest Hrest].
    exists rest. split; [exact Hrest|]. now rewrite Hrest, text_of_app. }
  split.
  { destruct (reasoning_loop_first_text crawl search summary model
                messages 9 0 []) as [rest Hrest].
    exists (text_of rest). unfold maxSteps. rewrite Hrest. simpl.
    now rewrite text_of_app, text_of_text_parts. }
  split; [apply text_of_frames_parts|].
  intros pk append u chatId isNewChat w.
  exact (stream_response_tail pk crawl search summary model append u
           {| body_messages := messages; body_chatId := chatId;
              body_isNewChat := isNewChat |} w).
Qed.

Lemma streamText_step_ceiling_witness :
  let g := streamText sample_crawl sample_search sample_summary eager_model
                      [text_message user "Weather"] maxSteps in
  gen_steps g = 10 /\
  text_of_frames (frames_of g)
  = "Searching.Searching.Searching.Searching.Searching.Searching.Searching.Searching.Searching.Searching.".
Proof.
  split.
  - apply (streamText_step_ceiling sample_crawl sample_search sample_summary
             eager_model [text_message user "Weather"]).
    intros ctx ps. simpl. discriminate.
  - reflexivity.
Defined.

(* ===================================================================== *)
(** * Part III. Further properties of the code                            *)
(* ===================================================================== *)


(** ** Ordering *)

Lemma insert_by_perm {A} (before : A -> A -> bool) (x : A) (l : list A) :
  Permutation (insert_by before x l) (x :: l).
Proof.
  induction l as [|y l IH]; simpl; [apply Permutation_refl|].
  destruct (before x y); [apply Permutation_refl|].
  apply perm_trans with (y :: x :: l); [now apply perm_skip | apply perm_swap].
Qed.

Lemma sort_by_perm {A} (before : A -> A -> bool) (l : list A) :
  Permutation (sort_by before l) l.
Proof.
  induction l as [|x l IH]; simpl; [apply perm_nil|].
  apply perm_trans with (x :: sort_by before l);
    [apply insert_by_perm | now apply perm_skip].
Qed.

Lemma insert_by_sorted {A} (before : A -> A -> bool) (x : A) (l : list A) :
  (forall a b, before a b = false -> before b a = true) ->
  Sorted (fun a b => before a b = true) l ->
  Sorted (fun a b => before a b = true) (insert_by before x l).
Proof.
  intros Htotal. induction l as [|y l IH]; intros Hs; simpl.
  - repeat constructor.
  - destruct (before x y) eqn:E.
    + constructor; [exact Hs | now constructor].
    + inversion Hs as [|? ? Hl Hhd]; subst. constructor; [now apply IH|].
      destruct l as [|z l]; simpl.
      * constructor. now apply Htotal.
      * destruct (before x z); constructor; [now apply Htotal|].
        now inversion Hhd.
Qed.

Lemma sort_by_sorted {A} (before : A -> A -> bool) (l : list A) :
  (forall a b, before a b = false -> before b a = true) ->
  Sorted (fun a b => before a b = true) (sort_by before l).
Proof.
  intros Htotal. induction l as [|x l IH]; simpl; [constructor|].
  now apply insert_by_sorted.
Qed.

Lemma orderBy_order_sort_by (l : list MessageRow) :
  orderBy_order l = sort_by (fun r x => (msg_order r <=? msg_order x)%nat) l.
Proof.
  unfold orderBy_order, sort_by. induction l as [|r l IH]; simpl; [reflexivity|].
  rewrite IH. generalize (fold_right
    (insert_by (fun r0 x => (msg_order r0 <=? msg_order x)%nat)) [] l).
  intros l0. induction l0 as [|y l0 IH0]; simpl; [reflexivity|].
  now rewrite IH0.
Qed.

Lemma Sorted_weaken {A} (R R' : A -> A -> Prop) (l : list A) :
  (forall a b, R a b -> R' a b) -> Sorted R l -> Sorted R' l.
Proof.
  intros HR. induction 1 as [|x l Hs IH Hhd]; constructor; [exact IH|].
  destruct Hhd; constructor. now apply HR.
Qed.

(** ** getChat and getChats: what a reader gets *)

(** X1.  [getChat] returns a chat exactly when the user owns one under
    the id.  What it returns is a chat row of the table with this id and
    this owner, together with the message rows of the id, all of them
    and no others, in ascending [order]; the store stays as it was. *)
Theorem getChat_owned_sorted (u c : string) (s : Db) :
  (owns u c s = true <->
   exists ch rows, fst (getChat u c s) = Ok (Some (ch, rows))) /\
  (forall ch rows,
      fst (getChat u c s) = Ok (Some (ch, rows)) ->
      In ch (chats s) /\ chat_id ch = c /\ chat_userId ch = u /\
      Permutation rows (filter (fun r => msg_chatId r =? c) (messages s)) /\
      Sorted (fun a b => msg_order a <= msg_order b) rows) /\
  snd (getChat u c s) = s.
Proof.
  destruct (find (owned_by u c) (chats s)) as [ch0|] eqn:Hfind.
  - rewrite (getChat_found u c s ch0 Hfind). simpl.
    pose proof Hfind as Hsome. apply find_some in Hsome.
    destruct Hsome as [Hin Hown]. apply owned_by_true in Hown.
    destruct Hown as [Hc Hu].
    split; [|split; [|reflexivity]].
    + split; [intros _; eauto|]. intros _.
      destruct (owns u c s) eqn:Ho; [reflexivity|].
      apply owns_false_find in Ho. congruence.
    + intros ch rows Heq. injection Heq as <- <-.
      repeat (split; [assumption|]).
      rewrite orderBy_order_sort_by. split; [apply sort_by_perm|].
      apply Sorted_weaken with
        (R := fun a b => (msg_order a <=? msg_order b)%nat = true).
      * intros a b. apply Nat.leb_le.
      * apply sort_by_sorted. intros a b H.
        apply Nat.leb_gt in H. apply Nat.leb_le. lia.
  - rewrite (getChat_missing u c s Hfind). simpl.
    split; [|split; [|reflexivity]].
    + apply owns_false_find in Hfind. rewrite Hfind.
      split; [discriminate|]. intros [ch [rows H]]. discriminate.
    + intros ch rows H. discriminate.
Qed.

Lemma getChat_owned_sorted_witness :
  Permutation (mapi (message_row "c1") [text_message user "Hello";
                                        text_message assistant "Hi Alice"])
              (filter (fun r => msg_chatId r =? "c1") (messages alice_db)).
Proof.
  destruct (getChat_owned_sorted "alice" "c1" alice_db) as [_ [Hrows _]].
  exact (proj1 (proj2 (proj2 (proj2
    (Hrows alice_chat
           (mapi (message_row "c1") [text_message user "Hello";
                                     text_message assistant "Hi Alice"])
           eq_refl))))).
Defined.

(** X2.  [getChats] lists the chat rows of the user, each one as often
    as the table holds it and none of another user, latest [updatedAt]
    first, and leaves the store as it was. *)
Theorem getChats_of_user (updatedAt : Chat -> nat) (u : string) (s : Db) :
  exists l,
    getChats updatedAt u s = (Ok l, s) /\
    Permutation l (filter (fun c => chat_userId c =? u) (chats s)) /\
    (forall c, In c l <-> In c (chats s) /\ chat_userId c = u) /\
    Sorted (fun a b => updatedAt b <= updatedAt a) l.
Proof.
  eexists. split; [reflexivity|].
  pose proof (sort_by_perm (fun a b => (updatedAt b <=? updatedAt a)%nat)
                (filter (fun c => chat_userId c =? u) (chats s))) as Hperm.
  split; [exact Hperm|]. split.
  - intros c. split.
    + intros Hin. apply (Permutation_in _ Hperm) in Hin.
      apply filter_In in Hin. now rewrite String.eqb_eq in Hin.
    + intros [Hin Hu]. apply (Permutation_in _ (Permutation_sym Hperm)).
      apply filter_In. now rewrite String.eqb_eq.
  - apply Sorted_weaken with
      (R := fun a b => (updatedAt b <=? updatedAt a)%nat = true).
    + intros a b. apply Nat.leb_le.
    + apply sort_by_sorted. intros a b H.
      apply Nat.leb_gt in H. apply Nat.leb_le. lia.
Qed.

(** ** upsertChat: outcome, frame and invariants *)

Lemma map_key_retitled (o : UpsertOpts) (ch : Chat) (l : list Chat) :
  map chat_key (retitled o ch l) = map chat_key l.
Proof.
  unfold retitled. destruct (negb (chat_title ch =? opt_title o)); [|reflexivity].
  rewrite map_map. apply map_ext. intros c.
  now destruct (chat_id c =? opt_chatId o).
Qed.

Lemma filter_other_retitled (o : UpsertOpts) (ch : Chat) (l : list Chat) :
  filter (fun c => negb (chat_id c =? opt_chatId o)) (retitled o ch l)
  = filter (fun c => negb (chat_id c =? opt_chatId o)) l.
Proof.
  unfold retitled. destruct (negb (chat_title ch =? opt_title o)); [|reflexivity].
  induction l as [|c l IH]; simpl; [reflexivity|].
  destruct (chat_id c =? opt_chatId o) eqn:E; simpl; rewrite E; simpl;
    now rewrite IH.
Qed.

Lemma existsb_id_keys (c : string) (l l' : list Chat) :
  map chat_key l' = map chat_key l ->
  existsb (fun c0 => chat_id c0 =? c) l' = existsb (fun c0 => chat_id c0 =? c) l.
Proof.
  intros H.
  assert (forall l0, existsb (fun c0 => chat_id c0 =? c) l0
                     = existsb (fun k => fst k =? c) (map chat_key l0)) as Hk.
  { induction l0 as [|x l0 IH]; simpl; [reflexivity | now rewrite IH]. }
  now rewrite !Hk, H.
Qed.

Lemma filter_filter_weaker {A} (p q : A -> bool) (l : list A) :
  (forall x, p x = true -> q x = true) ->
  filter p (filter q l) = filter p l.
Proof.
  intros Hpq. induction l as [|x l IH]; simpl; [reflexivity|].
  destruct (q x) eqn:Hq; simpl.
  - now rewrite IH.
  - destruct (p x) eqn:Hp; [|exact IH].
    apply Hpq in Hp. congruence.
Qed.

(** X4.  [upsertChat] writes under its own chat id only: the message
    rows of every other chat id and the chat rows of every other id are
    after the call what they were before it, whatever its outcome. *)
Theorem upsertChat_other_chats_untouched (pk : bool) (o : UpsertOpts) (s : Db)
  (c' : string) :
  c' <> opt_chatId o ->
  let s' := snd (upsertChat pk o s) in
  filter (fun r => msg_chatId r =? c') (messages s')
  = filter (fun r => msg_chatId r =? c') (messages s) /\
  filter (fun c => chat_id c =? c') (chats s')
  = filter (fun c => chat_id c =? c') (chats s).
Proof.
  intros Hne s'. unfold s'.
  assert (forall x, (x =? c') = true -> negb (x =? opt_chatId o) = true) as Hweak.
  { intros x Hx. apply String.eqb_eq in Hx. subst x.
    apply negb_true_iff. now apply String.eqb_neq. }
  assert (filter (fun r => msg_chatId r =? c') (new_rows o) = []) as Hnew.
  { apply filter_none. intros r Hr. apply rows_chatId in Hr. rewrite Hr.
    apply String.eqb_neq. congruence. }
  destruct (find (owned_by (opt_userId o) (opt_chatId o)) (chats s))
    as [ch|] eqn:Hfind.
  - rewrite (upsertChat_replace pk o s ch Hfind). simpl. split.
    + rewrite filter_app, Hnew, app_nil_r.
      apply (filter_filter_weaker (fun r => msg_chatId r =? c')
               (fun r => negb (msg_chatId r =? opt_chatId o))).
      intros r. apply Hweak.
    + rewrite <- (filter_filter_weaker (fun c => chat_id c =? c')
                    (fun c => negb (chat_id c =? opt_chatId o))
                    (retitled o ch (chats s))) by (intros c; apply Hweak).
      rewrite filter_other_retitled.
      apply filter_filter_weaker. intros c. apply Hweak.
  - rewrite (upsertChat_create pk o s Hfind).
    destruct (pk && existsb _ (chats s)); simpl; [split; reflexivity|].
    rewrite !filter_app, Hnew, app_nil_r. simpl.
    destruct (String.eqb_spec (opt_chatId o) c') as [Heq|_];
      [congruence | now rewrite app_nil_r].
Qed.

Lemma upsertChat_other_chats_untouched_witness :
  filter (fun r => msg_chatId r =? "c1")
         (messages (snd (upsertChat false bob_empty_opts alice_db)))
  = messages alice_db.
Proof.
  refine (proj1 (upsertChat_other_chats_untouched false bob_empty_opts alice_db
                   "c1" _)).
  discriminate.
Defined.

(** X5.  [upsertChat] never removes a chat row and never changes the
    owner of one: the (id, owner) pairs of the table are kept in place,
    and at most the pair of the call is added at the end. *)
Theorem upsertChat_keeps_owners (pk : bool) (o : UpsertOpts) (s : Db) :
  let s' := snd (upsertChat pk o s) in
  map chat_key (chats s') = map chat_key (chats s) \/
  (owns (opt_userId o) (opt_chatId o) s = false /\
   map chat_key (chats s')
   = map chat_key (chats s) ++ [(opt_chatId o, opt_userId o)]).
Proof.
  intros s'. unfold s'.
  destruct (find (owned_by (opt_userId o) (opt_chatId o)) (chats s))
    as [ch|] eqn:Hfind.
  - rewrite (upsertChat_replace pk o s ch Hfind). simpl.
    left. apply map_key_retitled.
  - rewrite (upsertChat_create pk o s Hfind).
    destruct (pk && existsb _ (chats s)); simpl; [now left|].
    right. split; [now apply owns_false_find|].
    now rewrite map_app.
Qed.

Lemma no_orphans_spec (s : Db) :
  no_orphans s = true <->
  forall r, In r (messages s) -> chat_exists (msg_chatId r) s = true.
Proof.
  unfold no_orphans. apply forallb_forall.
Qed.

Lemma chat_exists_app (c : string) (l : list Chat) (x : Chat) (ms ms' : list MessageRow) :
  chat_exists c {| chats := l ++ [x]; messages := ms |}
  = chat_exists c {| chats := l; messages := ms' |} || (chat_id x =? c).
Proof.
  unfold chat_exists. simpl. rewrite existsb_app. simpl. now rewrite orb_false_r.
Qed.

(** One call keeps every message row attached to a chat row. *)
Lemma upsertChat_keeps_no_orphans (pk : bool) (o : UpsertOpts) (s : Db) :
  no_orphans s = true -> no_orphans (snd (upsertChat pk o s)) = true.
Proof.
  intros Hno. rewrite no_orphans_spec in Hno.
  destruct (find (owned_by (opt_userId o) (opt_chatId o)) (chats s))
    as [ch|] eqn:Hfind.
  - rewrite (upsertChat_replace pk o s ch Hfind). simpl.
    apply no_orphans_spec. simpl. intros r Hr.
    unfold chat_exists at 1. simpl.
    rewrite (existsb_id_keys (msg_chatId r) _ _ (map_key_retitled o ch (chats s))).
    fold (chat_exists (msg_chatId r) s).
    apply in_app_or in Hr. destruct Hr as [Hr|Hr].
    + apply filter_In in Hr. now apply Hno.
    + apply rows_chatId in Hr. rewrite Hr.
      apply find_some in Hfind. destruct Hfind as [Hin Hown].
      apply owned_by_true in Hown. destruct Hown as [Hc _].
      unfold chat_exists. apply existsb_exists. exists ch.
      split; [exact Hin | now apply String.eqb_eq].
  - rewrite (upsertChat_create pk o s Hfind).
    destruct (pk && existsb _ (chats s)); simpl; [now apply no_orphans_spec|].
    apply no_orphans_spec. simpl. intros r Hr.
    rewrite (chat_exists_app (msg_chatId r) (chats s) (new_chat o) _ (messages s)).
    apply in_app_or in Hr. destruct Hr as [Hr|Hr].
    + apply Hno in Hr. destruct s as [cs ms]. simpl in *. now rewrite Hr.
    + apply rows_chatId in Hr. rewrite Hr. simpl.
      rewrite String.eqb_refl. apply orb_true_r.
Qed.

(** With a store that refuses a second row with an id, one call keeps
    the chat ids distinct. *)
Lemma upsertChat_keeps_unique_ids (o : UpsertOpts) (s : Db) :
  NoDup (map chat_id (chats s)) ->
  NoDup (map chat_id (chats (snd (upsertChat true o s)))).
Proof.
  intros Hnd.
  assert (forall l, map chat_id l = map fst (map chat_key l)) as Hids.
  { intros l. rewrite map_map. reflexivity. }
  destruct (find (owned_by (opt_userId o) (opt_chatId o)) (chats s))
    as [ch|] eqn:Hfind.
  - rewrite (upsertChat_replace true o s ch Hfind). simpl.
    now rewrite Hids, map_key_retitled, <- Hids.
  - rewrite (upsertChat_create true o s Hfind). simpl.
    destruct (existsb _ (chats s)) eqn:Hex; simpl; [exact Hnd|].
    rewrite map_app. simpl.
    apply NoDup_app; [exact Hnd | repeat constructor; intros [] | ].
    intros x Hx [<-|[]]. apply in_map_iff in Hx. destruct Hx as [c [Hc Hin]].
    assert (existsb (fun c0 => chat_id c0 =? opt_chatId o) (chats s) = true) as Habs.
    { apply existsb_exists. exists c. split; [exact Hin | now apply String.eqb_eq]. }
    congruence.
Qed.

Lemma run_upserts_no_orphans (pk : bool) (calls : list UpsertOpts) (s : Db) :
  no_orphans s = true -> no_orphans (run_upserts pk calls s) = true.
Proof.
  unfold run_upserts. revert s. induction calls as [|o os IH]; intros s Hs;
    simpl; [exact Hs|].
  apply IH. now apply upsertChat_keeps_no_orphans.
Qed.

Lemma run_upserts_unique_ids (calls : list UpsertOpts) (s : Db) :
  NoDup (map chat_id (chats s)) ->
  NoDup (map chat_id (chats (run_upserts true calls s))).
Proof.
  unfold run_upserts. revert s. induction calls as [|o os IH]; intros s Hs;
    simpl; [exact Hs|].
  apply IH. now apply upsertChat_keeps_unique_ids.
Qed.

(** X6.  Whatever series of [upsertChat] calls is run from the empty
    store, rejected calls included, every message row belongs to a chat
    row.  When the store refuses a second row with an id, the chat ids
    stay distinct as well, and then no chat id has two owners. *)
Theorem upsertChat_invariants (calls : list UpsertOpts) :
  (forall pk, no_orphans (run_upserts pk calls empty_db) = true) /\
  NoDup (map chat_id (chats (run_upserts true calls empty_db))) /\
  (forall u u' c,
      owns u c (run_upserts true calls empty_db) = true ->
      owns u' c (run_upserts true calls empty_db) = true -> u = u').
Proof.
  pose proof (fun pk => run_upserts_no_orphans pk calls empty_db eq_refl) as Horph.
  pose proof (run_upserts_unique_ids calls empty_db (NoDup_nil _)) as Huniq.
  split; [exact Horph|].
  split; [exact Huniq|].
  intros u u' c Hu Hu'.
  apply owns_true_find in Hu. destruct Hu as [ch [_ [Hin [Hc Hown]]]].
  apply owns_true_find in Hu'. destruct Hu' as [ch' [_ [Hin' [Hc' Hown']]]].
  revert Huniq Hin Hin'. generalize (chats (run_upserts true calls empty_db)).
  intros l. induction l as [|x l IH]; simpl; [tauto|].
  intros Hnd [Hx|Hin] [Hx'|Hin']; inversion Hnd as [|? ? Hnotin Hnd']; subst.
  - congruence.
  - exfalso. apply Hnotin. apply in_map_iff. exists ch'. now split; [congruence|].
  - exfalso. apply Hnotin. apply in_map_iff. exists ch. now split; [congruence|].
  - now apply IH.
Qed.

(** After the create branch on an id that no chat had, in a store
    without stray rows, [getChat] returns the chat and the rows written. *)
Lemma getChat_after_create (o : UpsertOpts) (s : Db) :
  chat_exists (opt_chatId o) s = false ->
  no_orphans s = true ->
  let s' := {| chats := chats s ++ [new_chat o];
               messages := messages s ++ new_rows o |} in
  getChat (opt_userId o) (opt_chatId o) s'
  = (Ok (Some (new_chat o, new_rows o)), s').
Proof.
  intros Hex Hno s'.
  pose proof (chat_exists_false_owns (opt_userId o) _ _ Hex) as Hown.
  apply owns_false_find in Hown.
  assert (find (owned_by (opt_userId o) (opt_chatId o)) (chats s')
          = Some (new_chat o)) as Hnew.
  { unfold s'. simpl. rewrite find_append, Hown. simpl.
    unfold owned_by, new_chat; simpl. now rewrite !String.eqb_refl. }
  rewrite (getChat_found (opt_userId o) (opt_chatId o) s' _ Hnew).
  unfold s'. simpl. rewrite filter_app.
  assert (filter (fun r => msg_chatId r =? opt_chatId o) (messages s) = []) as Hold.
  { apply filter_none. intros r Hr.
    rewrite no_orphans_spec in Hno. specialize (Hno r Hr).
    destruct (String.eqb_spec (msg_chatId r) (opt_chatId o)) as [Heq|]; [|reflexivity].
    rewrite Heq in Hno. congruence. }
  rewrite Hold. simpl. unfold new_rows. rewrite filter_rows_same.
  unfold mapi. now rewrite orderBy_order_rows.
Qed.

(** C5.  The store keeps [chats.id] unique, as the sources use it (a
    chat is looked up and its title updated by id alone).  In every
    store state that [upsertChat] calls can produce from the empty
    store, a second call with the same arguments ends as the first one
    did and leaves the same store: if the first was rejected, so is the
    second and nothing changed; if it succeeded, the chat is read back
    with the given title and with one row per given message, in the
    given order and numbered from zero, so no row is duplicated.  For
    either kind of store and any state without stray rows the two calls
    also agree whenever the chat id is not held by another user. *)
Theorem upsertChat_idempotent (calls : list UpsertOpts) (o : UpsertOpts) :
  let s := run_upserts true calls empty_db in
  let once := upsertChat true o s in
  let twice := upsertChat true o (snd once) in
  twice = once /\
  (fst once = Ok tt ->
   exists rows,
     fst (getChat (opt_userId o) (opt_chatId o) (snd twice))
     = Ok (Some ({| chat_id := opt_chatId o; chat_userId := opt_userId o;
                    chat_title := opt_title o |}, rows)) /\
     List.length rows = List.length (opt_messages o) /\
     (forall k m, nth_error (opt_messages o) k = Some m ->
                  nth_error rows k
                  = Some {| msg_chatId := opt_chatId o; msg_role := role m;
                            msg_parts := parts m; msg_order := k |})) /\
  (forall pk s0,
      no_orphans s0 = true ->
      (chat_exists (opt_chatId o) s0 = true ->
       owns (opt_userId o) (opt_chatId o) s0 = true) ->
      upsertChat pk o (snd (upsertChat pk o s0)) = upsertChat pk o s0).
Proof.
  intros s once twice.
  pose proof (run_upserts_no_orphans true calls empty_db eq_refl) as Hno.
  fold s in Hno.
  assert (twice = once) as Htwice
    by (unfold twice, once; apply upsertChat_twice; [exact Hno | now left]).
  split; [exact Htwice|]. split.
  - rewrite Htwice. unfold once. intros Hok.
    exists (new_rows o).
    split; [|split; [apply mapi_from_length | intros k m Hk; now apply new_rows_nth]].
    destruct (find (owned_by (opt_userId o) (opt_chatId o)) (chats s))
      as [ch|] eqn:Hfind.
    + rewrite (upsertChat_replace true o s ch Hfind). simpl.
      rewrite (f_equal fst (getChat_after_replace o s ch Hfind)). simpl.
      apply find_some in Hfind. destruct Hfind as [_ Hown].
      apply owned_by_true in Hown. destruct Hown as [Hc Hu].
      unfold set_title. now rewrite Hc, Hu.
    + rewrite (upsertChat_create true o s Hfind) in Hok |- *.
      simpl in Hok |- *.
      destruct (existsb (fun c => chat_id c =? opt_chatId o) (chats s)) eqn:Hex;
        [discriminate|]. simpl.
      exact (f_equal fst (getChat_after_create o s Hex Hno)).
  - intros pk s0 Hno0 Hheld. apply upsertChat_twice; [exact Hno0 | now right].
Qed.

Lemma upsertChat_idempotent_witness :
  let s := run_upserts true
             [{| opt_userId := "alice"; opt_chatId := "c1"; opt_title := "Hello...";
                 opt_messages := [text_message user "Hello"] |}; bob_opts]
             empty_db in
  upsertChat true alice_opts (snd (upsertChat true alice_opts s))
  = upsertChat true alice_opts s /\
  upsertChat true bob_opts (snd (upsertChat true bob_opts s))
  = upsertChat true bob_opts s /\
  fst (upsertChat true bob_opts s) = Err (UniqueViolation "chats").
Proof.
  split; [|split; [|reflexivity]].
  - exact (proj1 (upsertChat_idempotent
             [{| opt_userId := "alice"; opt_chatId := "c1"; opt_title := "Hello...";
                 opt_messages := [text_message user "Hello"] |}; bob_opts]
             alice_opts)).
  - exact (proj1 (upsertChat_idempotent
             [{| opt_userId := "alice"; opt_chatId := "c1"; opt_title := "Hello...";
                 opt_messages := [text_message user "Hello"] |}; bob_opts]
             bob_opts)).
Defined.



(** ** Titles *)

Lemma string_length_append (s1 s2 : string) :
  String.length (s1 ++ s2)%string = String.length s1 + String.length s2.
Proof.
  induction s1 as [|a s1 IH]; simpl; [reflexivity | now rewrite IH].
Qed.

Lemma substring_head_length (n : nat) (s : string) :
  String.length (substring 0 n s) = Nat.min n (String.length s).
Proof.
  revert s. induction n as [|n IH]; intros s.
  - now destruct s.
  - destruct s as [|a s]; simpl; [reflexivity | now rewrite IH].
Qed.

Lemma substring_head_short (n : nat) (s : string) :
  String.length s <= n -> substring 0 n s = s.
Proof.
  revert s. induction n as [|n IH]; intros s Hlen.
  - destruct s; simpl in *; [reflexivity | lia].
  - destruct s as [|a s]; simpl in *; [reflexivity|].
    rewrite IH; [reflexivity | lia].
Qed.

Lemma substring_head_prefix (n : nat) (s : string) :
  exists rest, s = (substring 0 n s ++ rest)%string.
Proof.
  revert s. induction n as [|n IH]; intros s.
  - exists s. now destruct s.
  - destruct s as [|a s]; simpl; [now exists ""|].
    destruct (IH s) as [rest Hrest]. exists rest. now rewrite <- Hrest.
Qed.

Lemma ascii_only_append (s1 s2 : string) :
  ascii_only (s1 ++ s2)%string = ascii_only s1 && ascii_only s2.
Proof.
  induction s1 as [|a s1 IH]; simpl; [reflexivity|].
  now rewrite IH, andb_assoc.
Qed.

Lemma ascii_only_substring_head (n : nat) (s : string) :
  ascii_only s = true -> ascii_only (substring 0 n s) = true.
Proof.
  revert s. induction n as [|n IH]; intros s Hs.
  - now destruct s.
  - destruct s as [|a s]; simpl in *; [reflexivity|].
    apply andb_true_iff in Hs. destruct Hs as [Ha Hs].
    now rewrite Ha, IH.
Qed.

(** X8.  For a message with ASCII content, where a character of the
    model is a UTF-16 code unit of the code: the title the route derives
    is never longer than 53 characters; it is the first 50 characters of
    the content, or the whole content when that is shorter, followed by
    three dots, which are added also when nothing was cut; and it is
    ASCII again. *)
Theorem title_of_bounds (m : Message) :
  ascii_only (content m) = true ->
  String.length (title_of m) = Nat.min 50 (String.length (content m)) + 3 /\
  String.length (title_of m) <= 53 /\
  (exists head rest, content m = (head ++ rest)%string
                     /\ String.length head = Nat.min 50 (String.length (content m))
                     /\ title_of m = (head ++ "...")%string) /\
  (String.length (content m) <= 50 -> title_of m = (content m ++ "...")%string) /\
  ascii_only (title_of m) = true.
Proof.
  intros Hascii. unfold title_of.
  assert (String.length (substring 0 50 (content m) ++ "...")%string
          = Nat.min 50 (String.length (content m)) + 3) as Hlen.
  { now rewrite string_length_append, substring_head_length. }
  split; [exact Hlen|]. split; [rewrite Hlen; lia|]. split; [|split].
  - destruct (substring_head_prefix 50 (content m)) as [rest Hrest].
    exists (substring 0 50 (content m)), rest.
    split; [exact Hrest|]. split; [apply substring_head_length | reflexivity].
  - intros Hshort. now rewrite substring_head_short.
  - rewrite ascii_only_append, (ascii_only_substring_head 50 _ Hascii).
    reflexivity.
Qed.

Lemma title_of_bounds_witness :
  title_of (text_message user "What is the weather in Paris today, and tomorrow in Lyon?")
  = "What is the weather in Paris today, and tomorrow i..." /\
  title_of (text_message user "Weather") = "Weather...".
Proof.
  split; [reflexivity|].
  apply (title_of_bounds (text_message user "Weather")); [reflexivity|].
  simpl. lia.
Defined.

(** ** scrapePages: failed pages and the empty list *)

(** X9.  A page whose crawl failed is returned at the position of its
    URL with success false and the crawl's error text as its data, and
    the returned object then carries the overall error.  When every
    crawl succeeded the object has no error and every outcome reports
    success; for an empty URL list it is the object without error and
    without outcomes. *)
Theorem scrapePages_failures (crawl : string -> CrawlResult)
  (summary : list CrawlEntry -> string) (urls : list string) :
  let out := scrapePages_execute crawl summary urls in
  (forall k url err,
      nth_error urls k = Some url -> crawl url = CrawlError err ->
      nth_error (scrape_results out) k
      = Some {| page_url := url; page_success := false; page_data := Some err |}
      /\ scrape_error out
         = Some (summary (map (fun u => {| entry_url := u; entry_result := crawl u |})
                              urls))) /\
  (scrape_error out = None <->
   forall p, In p (scrape_results out) -> page_success p = true) /\
  scrapePages_execute crawl summary []
  = {| scrape_error := None; scrape_results := [] |}.
Proof.
  intros out.
  assert (forall p, In p (scrape_results out) ->
                    exists u, In u urls /\ page_success p = crawl_success (crawl u))
    as Hsrc.
  { intros p Hp. unfold out, scrapePages_execute in Hp.
    destruct (negb (bulk_success _)); simpl in Hp;
      rewrite map_map in Hp; apply in_map_iff in Hp;
      destruct Hp as [u [<- Hu]]; exists u; now split. }
  assert (forall u, In u urls -> exists p, In p (scrape_results out)
                    /\ page_success p = crawl_success (crawl u)) as Hback.
  { intros u Hu. unfold out, scrapePages_execute.
    destruct (negb (bulk_success _)); simpl; rewrite map_map;
      eexists; (split; [apply in_map_iff; exists u; split; [reflexivity|exact Hu]|]);
      reflexivity. }
  assert (bulk_success (bulkCrawlWebsites crawl summary urls)
          = forallb (fun u => crawl_success (crawl u)) urls) as Hflag.
  { unfold bulkCrawlWebsites. simpl. apply forallb_entries. }
  split; [|split; [|reflexivity]].
  - intros k url err Hk Hcrawl.
    assert (bulk_success (bulkCrawlWebsites crawl summary urls) = false) as Hfail.
    { rewrite Hflag. apply not_true_is_false. intros Hall.
      rewrite forallb_forall in Hall.
      specialize (Hall url (nth_error_In _ _ Hk)). rewrite Hcrawl in Hall.
      discriminate. }
    unfold out, scrapePages_execute. rewrite Hfail. simpl. split.
    + rewrite map_map. rewrite (map_nth_error _ _ _ Hk). simpl. now rewrite Hcrawl.
    + unfold bulkCrawlWebsites in Hfail. simpl in Hfail. now rewrite Hfail.
  - split.
    + intros Hnone p Hp.
      destruct (Hsrc p Hp) as [u [Hu ->]].
      destruct (bulk_success (bulkCrawlWebsites crawl summary urls)) eqn:Hok.
      * symmetry in Hflag. rewrite forallb_forall in Hflag. now apply Hflag.
      * unfold out, scrapePages_execute in Hnone. rewrite Hok in Hnone.
        simpl in Hnone. unfold bulkCrawlWebsites in Hok. simpl in Hok.
        rewrite Hok in Hnone. discriminate.
    + intros Hall. unfold out, scrapePages_execute.
      destruct (bulk_success (bulkCrawlWebsites crawl summary urls)) eqn:Hok;
        [reflexivity|]. exfalso.
      symmetry in Hflag. apply not_true_iff_false in Hflag. apply Hflag.
      apply forallb_forall. intros u Hu.
      destruct (Hback u Hu) as [p [Hp <-]]. now apply Hall.
Qed.

(** ** The chat route: which response, and what it leaves behind *)


Lemma chat_exists_false_verified (u c : string) (s : Db) :
  chat_exists c s = false -> verified u c s = false.
Proof.
  unfold chat_exists, verified. intros Hex.
  destruct (find (fun c0 => chat_id c0 =? c) (chats s)) as [ch|] eqn:Hfind;
    [|reflexivity].
  apply find_some in Hfind. destruct Hfind as [Hin Hid].
  assert (existsb (fun c0 => chat_id c0 =? c) (chats s) = true) as Habs
    by (apply existsb_exists; now exists ch).
  congruence.
Qed.

Lemma last_message_nonempty (l : list Message) :
  l <> [] -> exists m, last_message l = Some m.
Proof.
  intros Hne. unfold last_message.
  destruct (nth_error l (List.length l - 1)) as [m|] eqn:E; [now exists m|].
  apply nth_error_None in E. destruct l; [congruence | simpl in E; lia].
Qed.

Section RouteMore.

Variable pk : bool.
Variable crawl : string -> CrawlResult.
Variable search : string -> nat -> result (list OrganicResult).
Variable summary : list CrawlEntry -> string.
Variable model : LanguageModel.
Variable append : list Message -> list Message -> list Message.

Let post := POST pk crawl search summary model append.
Let generation (body : RequestBody) : Generation :=
  streamText crawl search summary model (body_messages body) maxSteps.

(** What [onFinish] saves. *)
Let saved (u : string) (body : RequestBody) (m : Message) : UpsertOpts :=
  {| opt_userId := u; opt_chatId := body_chatId body; opt_title := title_of m;
     opt_messages := append (body_messages body)
                            (response_messages (generation body)) |}.

(** The stream of a request whose user owns the chat: the save of
    [onFinish] is the replace branch and cannot be rejected. *)
Lemma stream_of_owner (u : string) (body : RequestBody) (m : Message)
  (ch : Chat) (w : World) :
  last_message (body_messages body) = Some m ->
  find (owned_by u (body_chatId body)) (chats (db w)) = Some ch ->
  createDataStreamResponse
    (execute pk crawl search summary model append u body) onError w
  = (DataStream (new_chat_frames body ++ frames_of (generation body)),
     {| db := snd (upsertChat pk (saved u body m) (db w));
        console := console w;
        telemetry_flushes := S (telemetry_flushes w);
        wire := new_chat_frames body ++ frames_of (generation body) |}).
Proof.
  intros Hlast Hfind.
  rewrite createDataStreamResponse_onError. cbv zeta.
  rewrite execute_then_onFinish. simpl.
  unfold onFinish. rewrite Hlast. unfold bind, liftDb, flushAsync. simpl.
  fold (generation body). fold (saved u body m).
  rewrite (upsertChat_replace pk (saved u body m) (db w) ch Hfind).
  reflexivity.
Qed.

Lemma stream_not_plain (exec : WorldM unit) (w : World) (status : nat)
  (text : string) :
  fst (createDataStreamResponse exec onError w) <> Respond status text.
Proof.
  rewrite createDataStreamResponse_onError. cbv zeta.
  destruct (exec _) as [[[]|e] w']; discriminate.
Qed.

(** The four ways [POST] can go. *)
Lemma POST_cases (session : option Session) (body : RequestBody) (w : World) :
  (session = None /\ post session body w = (Respond 401 "Unauthorized", w)) \/
  (session <> None /\ body_messages body = [] /\
   post session body w = (Respond 400 "No messages provided", w)) \/
  (exists s, session = Some s /\ body_messages body <> [] /\
             body_isNewChat body = false /\
             verified (session_user_id s) (body_chatId body) (db w) = false /\
             post session body w
             = (Respond 404 "Chat not found or unauthorized", w)) \/
  (exists s, session = Some s /\ body_messages body <> [] /\
             (body_isNewChat body = true \/
              verified (session_user_id s) (body_chatId body) (db w) = true) /\
             forall status text,
               fst (post session body w) <> Respond status text).
Proof.
  unfold post, POST. destruct session as [s|]; [|now left].
  right. destruct (body_messages body) as [|m0 ms] eqn:Hmsgs; simpl.
  { left. repeat split; discriminate. }
  right. unfold verified.
  destruct (body_isNewChat body).
  - right. exists s. repeat split; [discriminate | now left |].
    intros status text.
    destruct (last_message (m0 :: ms)) as [m|]; simpl; [|discriminate].
    unfold liftDb. destruct (upsertChat pk _ (db w)) as [[[]|e] db'];
      [apply stream_not_plain | discriminate].
  - destruct (find _ (chats (db w))) as [chat|].
    + destruct (chat_userId chat =? session_user_id s) eqn:Hu; simpl.
      * right. exists s. repeat split; [discriminate | now right |].
        intros status text. apply stream_not_plain.
      * left. exists s. repeat split; discriminate || assumption.
    + left. exists s. repeat split; discriminate.
Qed.

(** X10.  The plain responses of [POST].  401 is the answer exactly when
    there is no session; 400 exactly when there is one and the message
    list is empty; 404 exactly when a session sends a non-empty list
    with isNewChat=false and the row found under the chat id is missing
    or of another user, which includes every unknown chat id.  No other
    plain response exists, and a request answered by one leaves the
    store, the console and the stream as they were. *)
Theorem POST_plain_responses (session : option Session) (body : RequestBody)
  (w : World) :
  (fst (post session body w) = Respond 401 "Unauthorized" <-> session = None) /\
  (fst (post session body w) = Respond 400 "No messages provided" <->
   session <> None /\ body_messages body = []) /\
  (fst (post session body w) = Respond 404 "Chat not found or unauthorized" <->
   exists s, session = Some s /\ body_messages body <> [] /\
             body_isNewChat body = false /\
             verified (session_user_id s) (body_chatId body) (db w) = false) /\
  (forall u, chat_exists (body_chatId body) (db w) = false ->
             verified u (body_chatId body) (db w) = false) /\
  (forall status text,
      fst (post session body w) = Respond status text ->
      snd (post session body w) = w /\
      (status = 401 \/ status = 400 \/ status = 404)).
Proof.
  assert (forall u, chat_exists (body_chatId body) (db w) = false ->
                    verified u (body_chatId body) (db w) = false) as Hunknown
    by (intros u; apply chat_exists_false_verified).
  destruct (POST_cases session body w)
    as [[Hs Hp]|[[Hs [Hm Hp]]|[[s [Hs [Hm [Hn [Hv Hp]]]]]|[s [Hs [Hm [Hc Hp]]]]]]].
  - (* 401 *)
    rewrite Hp. simpl.
    split; [split; [intros _; exact Hs | reflexivity]|].
    split; [split; [discriminate | intros [H _]; congruence]|].
    split; [split; [discriminate | intros [s [H _]]; congruence]|].
    split; [exact Hunknown|].
    intros status text H. injection H as <- _. split; [reflexivity | now left].
  - (* 400 *)
    rewrite Hp. simpl.
    split; [split; [discriminate | intros H; congruence]|].
    split; [split; [intros _; now split | reflexivity]|].
    split; [split; [discriminate | intros [s [_ [H _]]]; congruence]|].
    split; [exact Hunknown|].
    intros status text H. injection H as <- _.
    split; [reflexivity | now right; left].
  - (* 404 *)
    rewrite Hp. simpl.
    split; [split; [discriminate | intros H; congruence]|].
    split; [split; [discriminate | intros [_ H]; congruence]|].
    split; [split; [intros _; exists s; now repeat split | reflexivity]|].
    split; [exact Hunknown|].
    intros status text H. injection H as <- _.
    split; [reflexivity | now right; right].
  - (* a stream, or a rejection *)
    split; [split; [intros H; exfalso; exact (Hp _ _ H) | intros H; congruence]|].
    split; [split; [intros H; exfalso; exact (Hp _ _ H)
                   | intros [_ H]; congruence]|].
    split.
    { split; [intros H; exfalso; exact (Hp _ _ H)|].
      intros [s' [Hs' [_ [Hn Hv]]]]. exfalso.
      rewrite Hs in Hs'. injection Hs' as <-.
      destruct Hc as [Hc|Hc]; congruence. }
    split; [exact Hunknown|].
    intros status text H. exfalso. exact (Hp _ _ H).
Qed.

End RouteMore.

Section RouteTurn.

Variable pk : bool.
Variable crawl : string -> CrawlResult.
Variable search : string -> nat -> result (list OrganicResult).
Variable summary : list CrawlEntry -> string.
Variable model : LanguageModel.
Variable append : list Message -> list Message -> list Message.

Let post := POST pk crawl search summary model append.
Let stream (u : string) (body : RequestBody) :=
  createDataStreamResponse
    (execute pk crawl search summary model append u body) onError.
Let generation (body : RequestBody) : Generation :=
  streamText crawl search summary model (body_messages body) maxSteps.
Let saved (u : string) (body : RequestBody) (m : Message) : UpsertOpts :=
  {| opt_userId := u; opt_chatId := body_chatId body; opt_title := title_of m;
     opt_messages := append (body_messages body)
                            (response_messages (generation body)) |}.

(** A turn for the owner of the chat: the frames, the flush, and the
    conversation as [getChat] returns it afterwards. *)
Lemma turn_of_owner (u : string) (body : RequestBody) (m : Message)
  (ch : Chat) (w : World) :
  last_message (body_messages body) = Some m ->
  find (owned_by u (body_chatId body)) (chats (db w)) = Some ch ->
  fst (stream u body w)
  = DataStream (new_chat_frames body ++ frames_of (generation body)) /\
  console (snd (stream u body w)) = console w /\
  telemetry_flushes (snd (stream u body w)) = S (telemetry_flushes w) /\
  fst (getChat u (body_chatId body) (db (snd (stream u body w))))
  = Ok (Some (set_title (title_of m) ch, new_rows (saved u body m))).
Proof.
  intros Hlast Hfind. unfold stream.
  rewrite (stream_of_owner pk crawl search summary model append u body m ch w
             Hlast Hfind).
  simpl. repeat (split; [reflexivity|]).
  fold (generation body). fold (saved u body m).
  rewrite (upsertChat_replace pk (saved u body m) (db w) ch Hfind).
  exact (f_equal fst (getChat_after_replace (saved u body m) (db w) ch Hfind)).
Qed.



(** X12.  With isNewChat=true the route does not look at who holds the
    chat id.  An authenticated request with messages is answered by a
    stream that starts with the new-chat event, unless the store refuses
    a second row with the id while the id is taken by somebody else: then
    the handler itself is rejected with the store's error and nothing is
    written.  It is never answered 404. *)
Theorem POST_new_chat_outcome (s : Session) (body : RequestBody) (w : World) :
  body_messages body <> [] ->
  body_isNewChat body = true ->
  let taken :=
    pk && chat_exists (body_chatId body) (db w)
       && negb (owns (session_user_id s) (body_chatId body) (db w)) in
  fst (post (Some s) body w)
  = (if taken then Rejected (UniqueViolation "chats")
     else DataStream (DataFrame "NEW_CHAT_CREATED" (body_chatId body)
                      :: frames_of (generation body))) /\
  (taken = true -> snd (post (Some s) body w) = w).
Proof.
  intros Hmsgs Hnew taken. unfold taken.
  destruct (last_message_nonempty _ Hmsgs) as [m Hlast].
  assert (new_chat_frames body
          = [DataFrame "NEW_CHAT_CREATED" (body_chatId body)]) as Hev
    by (unfold new_chat_frames; now rewrite Hnew).
  unfold post, POST.
  destruct (body_messages body) as [|m0 ms] eqn:Hbody; [congruence|]. simpl.
  rewrite <- Hbody in *. rewrite Hnew, Hlast. unfold liftDb.
  set (o := {| opt_userId := session_user_id s; opt_chatId := body_chatId body;
               opt_title := title_of m; opt_messages := body_messages body |}).
  destruct (find (owned_by (session_user_id s) (body_chatId body)) (chats (db w)))
    as [ch|] eqn:Hfind.
  - assert (owns (session_user_id s) (body_chatId body) (db w) = true) as Ho.
    { destruct (owns _ _ (db w)) eqn:Ho; [reflexivity|].
      apply owns_false_find in Ho. congruence. }
    rewrite Ho, andb_false_r.
    rewrite (upsertChat_replace pk o (db w) ch Hfind).
    pose proof (find_owned_retitled o ch (chats (db w)) Hfind) as Hfind'.
    split; [|discriminate].
    match goal with
    | |- fst (createDataStreamResponse _ _ ?w0) = _ =>
        destruct (turn_of_owner (session_user_id s) body m _ w0 Hlast Hfind')
          as [Hfs _]
    end.
    unfold stream in Hfs. rewrite Hfs, Hev. reflexivity.
  - rewrite (upsertChat_create pk o (db w) Hfind).
    apply owns_false_find in Hfind. rewrite Hfind.
    unfold chat_exists. simpl. rewrite andb_true_r.
    destruct (pk && existsb _ (chats (db w))) eqn:Htaken; simpl.
    + split; [reflexivity|]. intros _. now destruct w.
    + split; [|discriminate].
      assert (find (owned_by (session_user_id s) (body_chatId body))
                   (chats (db w) ++ [new_chat o]) = Some (new_chat o)) as Hfind'.
      { apply owns_false_find in Hfind. rewrite find_append, Hfind. simpl.
        unfold owned_by. simpl. now rewrite !String.eqb_refl. }
      match goal with
      | |- fst (createDataStreamResponse _ _ ?w0) = _ =>
          destruct (turn_of_owner (session_user_id s) body m _ w0 Hlast Hfind')
            as [Hfs _]
      end.
      unfold stream in Hfs. rewrite Hfs, Hev. reflexivity.
Qed.

End RouteTurn.


Lemma POST_new_chat_outcome_witness :
  fst (POST true sample_crawl sample_search sample_summary final_model
            (@app Message) (Some {| session_user_id := "bob" |})
            (bob_body true) (empty_world alice_db))
  = Rejected (UniqueViolation "chats").
Proof.
  refine (proj1 (POST_new_chat_outcome true sample_crawl sample_search
                   sample_summary final_model (@app Message)
                   {| session_user_id := "bob" |} (bob_body true)
                   (empty_world alice_db) _ eq_refl)).
  discriminate.
Defined.

(** ** onFinish: the save and the flush *)

(** X13.  [onFinish] ends as its save ends and leaves the store as the
    save left it; the console and the stream are not touched.  The trace
    is flushed after a save that succeeded and is not flushed after one
    that was rejected.  Without a last message nothing is saved and
    nothing is flushed. *)
Theorem onFinish_flush_after_save (pk : bool)
  (append : list Message -> list Message -> list Message)
  (u : string) (body : RequestBody) (g : Generation) (w : World) :
  (forall m,
      last_message (body_messages body) = Some m ->
      let save := upsertChat pk
                    {| opt_userId := u; opt_chatId := body_chatId body;
                       opt_title := title_of m;
                       opt_messages := append (body_messages body)
                                              (response_messages g) |} (db w) in
      let r := onFinish pk append u body g w in
      fst r = fst save /\ db (snd r) = snd save /\
      console (snd r) = console w /\ wire (snd r) = wire w /\
      telemetry_flushes (snd r)
      = (if is_ok (fst save) then S (telemetry_flushes w)
         else telemetry_flushes w)) /\
  (body_messages body = [] -> onFinish pk append u body g w = (Ok tt, w)).
Proof.
  split.
  - intros m Hlast save r. unfold r, onFinish. rewrite Hlast.
    unfold bind, liftDb, flushAsync. fold save.
    destruct save as [[[]|e] db']; simpl; repeat split; reflexivity.
  - intros Hempty. unfold onFinish. now rewrite Hempty.
Qed.

Lemma onFinish_flush_after_save_witness :
  telemetry_flushes
    (snd (onFinish true (@app Message) "bob" (bob_body false)
                   {| gen_steps := 1; gen_parts := [TextPart "Sunny."] |}
                   (empty_world alice_db))) = 0.
Proof.
  destruct (onFinish_flush_after_save true (@app Message) "bob" (bob_body false)
              {| gen_steps := 1; gen_parts := [TextPart "Sunny."] |}
              (empty_world alice_db)) as [Hsave _].
  exact (proj2 (proj2 (proj2 (proj2
    (Hsave (text_message user "Weather") eq_refl))))).
Defined.

(** ** The day-1 route *)

Lemma createDataStreamResponse_is_stream (exec : WorldM unit)
  (handler : Failure -> WorldM string) (w : World) :
  exists fs, fst (createDataStreamResponse exec handler w) = DataStream fs.
Proof.
  unfold createDataStreamResponse.
  destruct ((open_stream ;; catch exec _) w) as [r w']. simpl. now eexists.
Qed.

Lemma createDataStreamResponse_ok (exec : WorldM unit)
  (handler : Failure -> WorldM string) (w w' : World) :
  exec {| db := db w; console := console w;
          telemetry_flushes := telemetry_flushes w; wire := [] |} = (Ok tt, w') ->
  createDataStreamResponse exec handler w = (DataStream (wire w'), w').
Proof.
  intros H. unfold createDataStreamResponse, bind, open_stream, catch.
  simpl. now rewrite H.
Qed.

Lemma frames_of_part_no_error (ps : list MessagePart) (f : Frame) (msg : string) :
  In f (flat_map frames_of_part ps) -> f <> ErrorFrame msg.
Proof.
  intros Hf Heq. subst f. apply in_flat_map in Hf. destruct Hf as [p [_ Hp]].
  destruct p as [txt|name args st [output|]]; simpl in Hp;
    repeat (destruct Hp as [Hp|Hp]; [discriminate|]); contradiction.
Qed.

Section Day1Facts.

Variable pk : bool.
Variable randomUUID : string.
Variable generate : list Message -> StreamRun.
Variable append : list Message -> list Message -> list Message.

Let post := POST_day1 pk randomUUID generate append.

Let event_frames (body : Day1Body) (currentChatId : string) : list Frame :=
  match chatId_given (day1_chatId body) with
  | None => [DataFrame "NEW_CHAT_CREATED" currentChatId]
  | Some _ => []
  end.

Let saved (u c t : string) (body : Day1Body) (g : Generation) : UpsertOpts :=
  {| opt_userId := u; opt_chatId := c; opt_title := t;
     opt_messages := append (day1_messages body) (response_messages g) |}.

(** The stream of the day-1 route, in any world, for a generation that
    completes. *)
Lemma day1_stream_completed (u c t : string) (body : Day1Body) (w : World)
  (g : Generation) :
  generate (day1_messages body) = Completed g ->
  createDataStreamResponse
    (execute_day1 pk generate append u c t body) onError_day1 w
  = (DataStream (event_frames body c ++ frames_of g),
     {| db := snd (upsertChat pk (saved u c t body g) (db w));
        console :=
          match fst (upsertChat pk (saved u c t body g) (db w)) with
          | Ok _ => console w
          | Err e => console w ++ [{| log_label := "Failed to save chat:";
                                      log_error := e |}]
          end;
        telemetry_flushes := telemetry_flushes w;
        wire := event_frames body c ++ frames_of g |}).
Proof.
  intros Hgen.
  unfold createDataStreamResponse, execute_day1, mergeIntoDataStream,
    onFinish_day1, event_frames, open_stream, onError_day1,
    bind, catch, liftDb, write_frames, console_error, ret.
  rewrite Hgen. fold (saved u c t body g).
  destruct (chatId_given (day1_chatId body)); simpl;
    destruct (upsertChat pk (saved u c t body g) (db w)) as [[[]|e] db'];
    reflexivity.
Qed.

(** The same for a generation that breaks off. *)
Lemma day1_stream_broken (u c t : string) (body : Day1Body) (w : World)
  (sent : list MessagePart) (e : Failure) :
  generate (day1_messages body) = Broken sent e ->
  createDataStreamResponse
    (execute_day1 pk generate append u c t body) onError_day1 w
  = (DataStream (event_frames body c ++ flat_map frames_of_part sent
                 ++ [ErrorFrame "Oops, an error occured!"]),
     {| db := db w;
        console := console w ++ [{| log_label := ""; log_error := e |}];
        telemetry_flushes := telemetry_flushes w;
        wire := event_frames body c ++ flat_map frames_of_part sent
                ++ [ErrorFrame "Oops, an error occured!"] |}).
Proof.
  intros Hgen.
  unfold createDataStreamResponse, execute_day1, event_frames, open_stream,
    onError_day1, bind, catch, throw, write_frames, console_error, ret.
  rewrite Hgen.
  destruct (chatId_given (day1_chatId body)); simpl;
    rewrite <- ?app_assoc; reflexivity.
Qed.

(** X14.  The stream of the day-1 route, in any world.  A generation
    that completes gives the new-chat event when no chat id came with
    the request, then the generated frames, and no error frame, whatever
    the store does with the save of [onFinish]: a rejected save only
    leaves one line on the console.  An error frame is on the stream
    when the generation itself breaks off: it then closes the stream
    after the parts sent so far, the failure is on the console, and the
    store is as it was, since [onFinish] is not run. *)
Theorem day1_stream_error_frame (u c t : string) (body : Day1Body) (w : World) :
  let r := createDataStreamResponse
             (execute_day1 pk generate append u c t body) onError_day1 w in
  match generate (day1_messages body) with
  | Completed g =>
      let save := upsertChat pk (saved u c t body g) (db w) in
      fst r = DataStream (event_frames body c ++ frames_of g) /\
      (forall f, In f (frames_sent (fst r)) -> forall msg, f <> ErrorFrame msg) /\
      db (snd r) = snd save /\
      console (snd r)
      = match fst save with
        | Ok _ => console w
        | Err e => console w ++ [{| log_label := "Failed to save chat:";
                                    log_error := e |}]
        end
  | Broken sent e =>
      fst r = DataStream (event_frames body c ++ flat_map frames_of_part sent
                          ++ [ErrorFrame "Oops, an error occured!"]) /\
      db (snd r) = db w /\
      console (snd r) = console w ++ [{| log_label := ""; log_error := e |}]
  end.
Proof.
  intros r. unfold r.
  destruct (generate (day1_messages body)) as [g|sent e] eqn:Hgen.
  - rewrite (day1_stream_completed u c t body w g Hgen). simpl.
    split; [reflexivity|]. split; [|split; reflexivity].
    intros f Hf msg. apply in_app_or in Hf. destruct Hf as [Hf|Hf].
    + unfold event_frames in Hf.
      destruct (chatId_given (day1_chatId body)); simpl in Hf;
        [contradiction | destruct Hf as [<-|[]]; discriminate].
    + exact (frames_of_part_no_error _ f msg Hf).
  - rewrite (day1_stream_broken u c t body w sent e Hgen). simpl.
    now repeat split.
Qed.

(** The ways the day-1 [POST] can go. *)
Lemma POST_day1_cases (session : option Day1Session) (body : Day1Body)
  (w : World) :
  let account := match session with Some s => day1_user s | None => None end in
  (account = None /\ post session body w = (Respond 401 "Unauthorized", w)) \/
  (exists a id, account = Some a /\ chatId_given (day1_chatId body) = Some id /\
                verified (session_user_id a) id (db w) = false /\
                post session body w
                = (Respond 404 "Chat not found or unauthorized", w)) \/
  (exists a, account = Some a /\
             (chatId_given (day1_chatId body) = None \/
              exists id, chatId_given (day1_chatId body) = Some id /\
                         verified (session_user_id a) id (db w) = true) /\
             forall status text, fst (post session body w) <> Respond status text).
Proof.
  intros account. unfold post, POST_day1. fold account.
  destruct account as [a|]; [|now left].
  right.
  destruct (chatId_given (day1_chatId body)) as [id|].
  - destruct (verified (session_user_id a) id (db w)) eqn:Hv.
    + right. exists a. split; [reflexivity|].
      split; [right; exists id; split; [reflexivity | exact Hv]|].
      intros status text. unfold verified in Hv.
      destruct (find _ (chats (db w))) as [chat|]; [|discriminate].
      rewrite Hv. simpl. intros H.
      destruct (createDataStreamResponse_is_stream
                  (execute_day1 pk generate append (session_user_id a) id
                     (chatTitle_day1 (day1_messages body)) body)
                  onError_day1 w) as [fs Hfs].
      congruence.
    + left. exists a, id.
      split; [reflexivity|]. split; [reflexivity|]. split; [exact Hv|].
      unfold verified in Hv.
      destruct (find _ (chats (db w))) as [chat|]; [|reflexivity].
      now rewrite Hv.
  - right. exists a. split; [reflexivity|]. split; [now left|].
    intros status text. unfold liftDb.
    destruct (upsertChat pk _ (db w)) as [[[]|e] db']; [|discriminate].
    intros H.
    match type of H with
    | fst (createDataStreamResponse ?ex ?h ?w0) = _ =>
        destruct (createDataStreamResponse_is_stream ex h w0) as [fs Hfs]
    end.
    congruence.
Qed.

(** X15.  The plain responses of the day-1 [POST].  401 is the answer
    exactly when the session or its user is missing; 404 exactly when a
    user sends a chat id and the row found under it is missing or of
    another user.  There is no other plain response, in particular none
    for an empty message list, and a request answered by one leaves the
    world as it was.  An empty string as chat id counts as no chat id. *)
Theorem POST_day1_plain_responses (session : option Day1Session)
  (body : Day1Body) (w : World) :
  let account := match session with Some s => day1_user s | None => None end in
  (fst (post session body w) = Respond 401 "Unauthorized" <-> account = None) /\
  (fst (post session body w) = Respond 404 "Chat not found or unauthorized" <->
   exists a id, account = Some a /\ day1_chatId body = Some id /\ id <> "" /\
                verified (session_user_id a) id (db w) = false) /\
  (forall status text,
      fst (post session body w) = Respond status text ->
      snd (post session body w) = w /\ (status = 401 \/ status = 404)) /\
  post session {| day1_messages := day1_messages body; day1_chatId := Some "" |} w
  = post session {| day1_messages := day1_messages body; day1_chatId := None |} w.
Proof.
  intros account.
  assert (forall id, chatId_given (day1_chatId body) = Some id <->
                     day1_chatId body = Some id /\ id <> "") as Hgiven.
  { intros id. unfold chatId_given.
    destruct (day1_chatId body) as [id0|]; [|split; [discriminate | intros [H _]; discriminate]].
    destruct (String.eqb_spec id0 "") as [->|Hne].
    - split; [discriminate|]. intros [H Hne]. injection H as <-. congruence.
    - split; [intros H; injection H as <-; now split | intros [H _]; exact H]. }
  destruct (POST_day1_cases session body w)
    as [[Ha Hp]|[[a [id [Ha [Hid [Hv Hp]]]]]|[a [Ha [Hc Hp]]]]];
    fold account in Ha.
  - rewrite Hp. simpl.
    split; [split; [intros _; exact Ha | reflexivity]|].
    split; [split; [discriminate | intros [a [id [H _]]]; congruence]|].
    split; [|reflexivity].
    intros status text H. injection H as <- _. split; [reflexivity | now left].
  - rewrite Hp. simpl.
    split; [split; [discriminate | intros H; congruence]|].
    split.
    { split; [intros _|reflexivity]. exists a, id.
      apply Hgiven in Hid. destruct Hid as [Hid Hne]. now repeat split. }
    split; [|reflexivity].
    intros status text H. injection H as <- _. split; [reflexivity | now right].
  - split; [split; [intros H; exfalso; exact (Hp _ _ H) | intros H; congruence]|].
    split.
    { split; [intros H; exfalso; exact (Hp _ _ H)|].
      intros [a' [id [Ha' [Hid [Hne Hv]]]]]. exfalso.
      rewrite Ha in Ha'. injection Ha' as <-.
      assert (chatId_given (day1_chatId body) = Some id) as Hg
        by (apply Hgiven; now split).
      destruct Hc as [Hc|[id' [Hc Hv']]]; [congruence|].
      rewrite Hg in Hc. injection Hc as <-. congruence. }
    split; [|reflexivity].
    intros status text H. exfalso. exact (Hp _ _ H).
Qed.


End Day1Facts.

